(** * tvnotify_bot: new-episode detection and reaction tallying

    A shallow embedding of [src/index.js].  The asynchronous handlers are
    written in a state-and-exception monad over a [World] that holds the two
    MongoDB collections, the in-memory watermark object and the traces of
    everything the process sends out (provider requests, chat-transport calls,
    console lines).  The provider and the chat transport are oracles. *)

From stdpp Require Import base option list sorting strings gmap.
From Equations.Prop Require Import Equations Logic.
From Stdlib Require Import ZArith Lia Ascii.

Set Default Proof Using "Type".

(** ** Provider data *)

(** A season number as listed in [airedSeasons]. *)
Abbreviation Season := Z (only parsing).

(** A raw episode record of the provider.  The three descriptive fields may
    be missing or empty for an entry that has not been announced yet; the
    numeric [id] comes with every record. *)
Record Episode := mkEpisode {
  id : Z;
  episodeName : option string;
  overview : option string;
  filename : option string;
  airedSeason : Z;
  airedEpisodeNumber : Z
}.

Global Instance Episode_eq_dec : EqDecision Episode.
Proof. solve_decision. Defined.

(** JavaScript truthiness of a string field: [undefined]/[null] and the empty
    string are falsy. *)
Definition truthy (v : option string) : bool :=
  match v with
  | Some EmptyString => false
  | Some (String _ _) => true
  | None => false
  end.

(** The predicate of the [filter] call of [fetchValidEpisodes]:
    [ep.episodeName && ep.overview && ep.filename]. *)
Definition validEpisode (ep : Episode) : bool :=
  truthy (episodeName ep) && truthy (overview ep) && truthy (filename ep).

(** The body of [/series/<id>/episodes/summary]. *)
Record SeriesSummary := mkSummary {
  airedSeasons : option (list Season)
}.

(** What [fetch] followed by [response.json()] gives: a transport or parse
    fault, or a JSON object whose [data] member may be missing. *)
Inductive Response (A : Type) : Type :=
| Fault
| Body (data : option A).
Arguments Fault {A}.
Arguments Body {A} data.

Inductive Request : Type :=
| SummaryReq (seriesId : string)
| EpisodesReq (seriesId : string) (season : Season).

Global Instance Request_eq_dec : EqDecision Request.
Proof. solve_decision. Defined.

(** The provider.  Its answer may depend on the requests made so far, so a
    request that fails once could succeed when asked again. *)
Record Gateway := mkGateway {
  summaryResponse : list Request -> string -> Response SeriesSummary;
  episodesResponse : list Request -> string -> Season -> Response (list Episode)
}.

(** ** Reactions *)

Inductive Reaction : Type := Like | Love | Angry.

Global Instance Reaction_eq_dec : EqDecision Reaction.
Proof. solve_decision. Defined.

(** The value stored under [episodeId]: the handler stores the string cut out
    of the callback data, the notification path queries with the provider's
    number.  MongoDB compares them by type and value. *)
Inductive EpisodeKey : Type :=
| NumKey (n : Z)
| StrKey (s : string).

Global Instance EpisodeKey_eq_dec : EqDecision EpisodeKey.
Proof. solve_decision. Defined.

Record ReactionRecord := mkReaction {
  episodeId : EpisodeKey;
  userId : Z;
  reaction : Reaction
}.

Global Instance ReactionRecord_eq_dec : EqDecision ReactionRecord.
Proof. solve_decision. Defined.

(** The object built by [getReactions]. *)
Record reactionCounts := mkCounts {
  like : nat;
  love : nat;
  angry : nat
}.

Global Instance reactionCounts_eq_dec : EqDecision reactionCounts.
Proof. solve_decision. Defined.

(** ** Chat transport *)

Inductive ChatCall : Type :=
| SendPhoto (chatId : Z) (episode : Episode) (buttons : reactionCounts)
| Reply (text : string)
| EditMessageText (text : string)
| EditMessageReplyMarkup (episodeId : string) (buttons : reactionCounts)
| AnswerCbQuery (reaction : Reaction).

Global Instance ChatCall_eq_dec : EqDecision ChatCall.
Proof. solve_decision. Defined.

(** Whether an awaited transport call goes through; it may depend on what
    was sent before. *)
Definition Transport := list ChatCall -> ChatCall -> bool.

Inductive ConsoleLine : Type :=
| NoEpisodesForSeason (season : Season)
| NoAiredSeasons
| NoValidEpisodes
| ErrorFetchingLatest
| NoEpisodeData
| RemovingSeries (seriesId : string)
| ErrorUpdatingMarkup.

(** ** The process state *)

(** [seriesCollection] and [reactionsCollection] are the two MongoDB
    collections, as the documents in insertion order (nothing in the
    database keeps them free of duplicates).  [lastNotifiedEpisodes] is the
    module-level object used as a map from series id to the episode id last
    notified: the field holds the numbers the object has as its own
    properties, and the code reads and writes it as [readEntry] and
    [assignEntry] below say.  The last three fields
    record, in order, what the process asked of the provider, called on the
    chat transport and wrote to the console. *)

Record World := mkWorld {
  seriesCollection : list string;
  reactionsCollection : list ReactionRecord;
  lastNotifiedEpisodes : gmap string Z;
  requests : list Request;
  outbox : list ChatCall;
  console : list ConsoleLine
}.

Inductive Error : Type :=
| FetchError (r : Request)
| TransportError (c : ChatCall).

Inductive Outcome (A : Type) : Type :=
| Returned (a : A)
| Thrown (e : Error).
Arguments Returned {A} a.
Arguments Thrown {A} e.

(** An asynchronous function: it runs on the world, and either returns or
    rejects, keeping the effects made so far. *)
Definition M (A : Type) : Type := World -> Outcome A * World.

Global Instance M_ret : MRet M := fun A a w => (Returned a, w).
Global Instance M_bind : MBind M := fun A B f m w =>
  match m w with
  | (Returned a, w') => f a w'
  | (Thrown e, w') => (Thrown e, w')
  end.

Definition throw {A} (e : Error) : M A := fun w => (Thrown e, w).

Definition try_catch {A} (body : M A) (handler : Error -> M A) : M A := fun w =>
  match body w with
  | (Returned a, w') => (Returned a, w')
  | (Thrown e, w') => handler e w'
  end.

Definition gets {A} (f : World -> A) : M A := fun w => (Returned (f w), w).
Definition modify (f : World -> World) : M unit := fun w => (Returned tt, f w).

Definition console_error (l : ConsoleLine) : M unit :=
  modify (fun w => mkWorld (seriesCollection w) (reactionsCollection w)
                           (lastNotifiedEpisodes w) (requests w) (outbox w)
                           (console w ++ [l])).

Definition record_request (r : Request) : M unit :=
  modify (fun w => mkWorld (seriesCollection w) (reactionsCollection w)
                           (lastNotifiedEpisodes w) (requests w ++ [r]) (outbox w)
                           (console w)).

Definition record_call (c : ChatCall) : M unit :=
  modify (fun w => mkWorld (seriesCollection w) (reactionsCollection w)
                           (lastNotifiedEpisodes w) (requests w) (outbox w ++ [c])
                           (console w)).

Definition set_series (f : list string -> list string) : M unit :=
  modify (fun w => mkWorld (f (seriesCollection w)) (reactionsCollection w)
                           (lastNotifiedEpisodes w) (requests w) (outbox w)
                           (console w)).

Definition set_reactions (f : list ReactionRecord -> list ReactionRecord) : M unit :=
  modify (fun w => mkWorld (seriesCollection w) (f (reactionsCollection w))
                           (lastNotifiedEpisodes w) (requests w) (outbox w)
                           (console w)).

Definition set_lastNotified (f : gmap string Z -> gmap string Z) : M unit :=
  modify (fun w => mkWorld (seriesCollection w) (reactionsCollection w)
                           (f (lastNotifiedEpisodes w)) (requests w) (outbox w)
                           (console w)).

(** The one key of a plain object that is not a slot of its own: reads and
    writes of it go to the accessor inherited from [Object.prototype]. *)
Definition protoKey : string := "__proto__".

(** [obj[key]] as far as a comparison with a number can tell: the number the
    object has under [key], or none.  None stands for [undefined] and for
    whatever is inherited under a name never assigned ([constructor],
    [toString], ...): none of these is equal to a number.  Under [protoKey]
    the read always gives the prototype object, whatever the object holds. *)
Definition readEntry (obj : gmap string Z) (key : string) : option Z :=
  if decide (key = protoKey) then None else obj !! key.

(** [obj[key] = v] for a number [v]: an own property is created or
    overwritten, except under [protoKey], where the inherited setter takes
    the number and drops it without an error. *)
Definition assignEntry (key : string) (v : Z) (obj : gmap string Z)
  : gmap string Z :=
  if decide (key = protoKey) then obj else <[key := v]> obj.

(** [Array.prototype.pop]: the last element and the array without it. *)
Fixpoint pop {A} (l : list A) : option (A * list A) :=
  match l with
  | [] => None
  | x :: t =>
      match pop t with
      | None => Some (x, [])
      | Some (y, t') => Some (y, x :: t')
      end
  end.

Section Bot.

Context (gw : Gateway) (transport : Transport) (CHAT_ID : Z).

(** ** Provider calls *)

(** [await fetch(url)] then [await response.json()]. *)
Definition fetchJson {A} (r : Request) (answer : list Request -> Response A)
  : M (option A) := fun w =>
  let w' := snd (record_request r w) in
  match answer (requests w) with
  | Fault => (Thrown (FetchError r), w')
  | Body data => (Returned data, w')
  end.

(** [fetchValidEpisodes] (lines 33-47): no [try] of its own, a fault goes
    up to the caller. *)
Definition fetchValidEpisodes (seriesId : string) (season : Season)
  : M (list Episode) :=
  episodesData ← fetchJson (EpisodesReq seriesId season)
                   (fun h => episodesResponse gw h seriesId season);
  match episodesData with
  | None | Some [] =>
      console_error (NoEpisodesForSeason season);; mret []
  | Some eps => mret (filter (fun ep => validEpisode ep = true) eps)
  end.

(** The [while] loop of [fetchLatestEpisode], on the array it shortens. *)
Equations? seasonWalk (seriesId : string) (seasons : list Season) (w : World)
  : Outcome (option Episode) * World by wf (length seasons) lt :=
seasonWalk seriesId seasons w with inspect (pop seasons) := {
  | exist _ None _ =>
      (console_error NoValidEpisodes;; mret None) w
  | exist _ (Some (latestSeason, rest)) Hpop
      with fetchValidEpisodes seriesId latestSeason w := {
      | (Thrown e, w') => (Thrown e, w')
      | (Returned validEpisodes, w') with pop validEpisodes := {
          | Some (ep, _) => (Returned (Some ep), w')
          | None => seasonWalk seriesId rest w' } } }.
Proof.
  clear -Hpop. revert latestSeason rest Hpop.
  induction seasons as [|x t IH]; intros s rest Hpop; simpl in *; [done|].
  destruct (pop t) as [[y t']|] eqn:E.
  - inversion Hpop; subst. simpl. specialize (IH _ _ eq_refl). lia.
  - inversion Hpop; subst. simpl. lia.
Qed.

(** [fetchLatestEpisode] (lines 50-78): the whole body sits in a [try]
    whose [catch] logs and returns [null]. *)
Definition fetchLatestEpisode (seriesId : string) : M (option Episode) :=
  try_catch
    (data ← fetchJson (SummaryReq seriesId)
              (fun h => summaryResponse gw h seriesId);
     match data with
     | Some (mkSummary (Some (s :: l))) => seasonWalk seriesId (s :: l)
     | _ => console_error NoAiredSeasons;; mret None
     end)
    (fun _ => console_error ErrorFetchingLatest;; mret None).

(** ** The reactions collection *)

Definition sameUserEpisode (e : EpisodeKey) (u : Z) (d : ReactionRecord) : bool :=
  bool_decide (episodeId d = e) && bool_decide (userId d = u).

(** [reactionsCollection.findOne({ episodeId, userId })]: the first match. *)
Definition findOneReaction (e : EpisodeKey) (u : Z)
  : M (option ReactionRecord) :=
  gets (fun w => List.find (sameUserEpisode e u) (reactionsCollection w)).

(** [updateOne(filter, { $set: { reaction } })]: rewrites the first match. *)
Fixpoint updateOne (e : EpisodeKey) (u : Z) (r : Reaction)
  (coll : list ReactionRecord) : list ReactionRecord :=
  match coll with
  | [] => []
  | d :: rest =>
      if sameUserEpisode e u d
      then mkReaction (episodeId d) (userId d) r :: rest
      else d :: updateOne e u r rest
  end.

Definition insertOne {A} (doc : A) (coll : list A) : list A := coll ++ [doc].

(** The [$match] stage of [getReactions]. *)
Definition matchStage (e : EpisodeKey) (coll : list ReactionRecord)
  : list ReactionRecord :=
  filter (fun d => episodeId d = e) coll.

(** The [$group] stage: one group per reaction value met, with [$sum: 1]. *)
Fixpoint addToGroup (r : Reaction) (groups : list (Reaction * nat))
  : list (Reaction * nat) :=
  match groups with
  | [] => [(r, 1)]
  | (r', n) :: rest =>
      if decide (r' = r) then (r', S n) :: rest
      else (r', n) :: addToGroup r rest
  end.

Definition groupStage (docs : list ReactionRecord) : list (Reaction * nat) :=
  foldl (fun groups d => addToGroup (reaction d) groups) [] docs.

(** [reactionCounts[_id] = count]. *)
Definition setCount (c : reactionCounts) (k : Reaction) (v : nat) : reactionCounts :=
  match k with
  | Like => mkCounts v (love c) (angry c)
  | Love => mkCounts (like c) v (angry c)
  | Angry => mkCounts (like c) (love c) v
  end.

Definition tally (e : EpisodeKey) (coll : list ReactionRecord) : reactionCounts :=
  foldl (fun c g => setCount c g.1 g.2) (mkCounts 0 0 0)
        (groupStage (matchStage e coll)).

(** [getReactions] (lines 103-120): the counts start at zero and each group
    of the aggregation overwrites its entry. *)
Definition getReactions (e : EpisodeKey) : M reactionCounts :=
  gets (fun w => tally e (reactionsCollection w)).

(** ** Chat transport calls *)

(** An awaited call: it rejects when the transport refuses it. *)
Definition await_call (c : ChatCall) : M unit := fun w =>
  let w' := snd (record_call c w) in
  if transport (outbox w) c then (Returned tt, w')
  else (Thrown (TransportError c), w').

(** A call whose promise is dropped: its failure never reaches the handler. *)
Definition post_call (c : ChatCall) : M unit := record_call c.

(** ** Notification *)

(** [sendLatestEpisodeNotification] (lines 123-151).  Thumbnail and caption
    are functions of the episode, so the call is recorded with the episode
    and the counts shown on the three buttons. *)
Definition sendLatestEpisodeNotification (episode : option Episode) (chatId : Z)
  : M unit :=
  match episode with
  | None => console_error NoEpisodeData
  | Some ep =>
      reactions ← getReactions (NumKey (id ep));
      await_call (SendPhoto chatId ep reactions)
  end.

(** [checkForNewEpisode] (lines 154-160): the assignment to the watermark
    comes after the awaited send.  Both the read of line 156 and the
    assignment of line 158 are property accesses on the plain object. *)
Definition checkForNewEpisode (seriesId : string) : M unit :=
  latestEpisode ← fetchLatestEpisode seriesId;
  match latestEpisode with
  | Some ep =>
      lastNotified ← gets (fun w => readEntry (lastNotifiedEpisodes w) seriesId);
      if decide (Some (id ep) ≠ lastNotified) then
        sendLatestEpisodeNotification latestEpisode CHAT_ID;;
        set_lastNotified (assignEntry seriesId (id ep))
      else mret tt
  | None => mret tt
  end.

(** ** Series directory *)

(** [String.prototype.split] on a one-character separator. *)
Fixpoint split (sep : Ascii.ascii) (s : string) : list string :=
  match s with
  | EmptyString => [EmptyString]
  | String c rest =>
      if decide (c = sep) then EmptyString :: split sep rest
      else match split sep rest with
           | [] => [String c EmptyString]
           | piece :: pieces => String c piece :: pieces
           end
  end.

Definition addedText (seriesId : string) : string :=
  "Series with ID " +:+ seriesId +:+ " added.".

Definition rejectedText : string :=
  "Please provide a valid series ID or the series is already added.".

Definition removedText (seriesId : string) : string :=
  "Series with ID " +:+ seriesId +:+ " removed.".

(** [seriesCollection.findOne({ seriesId })]. *)
Definition findOneSeries (seriesId : string) : M (option string) :=
  gets (fun w => List.find (fun d => bool_decide (d = seriesId)) (seriesCollection w)).

(** [seriesCollection.deleteOne({ seriesId })]: removes the first match. *)
Fixpoint deleteOne (seriesId : string) (coll : list string) : list string :=
  match coll with
  | [] => []
  | d :: rest => if decide (d = seriesId) then rest else d :: deleteOne seriesId rest
  end.

(** [bot.command('add_series', ...)] (lines 173-181) on the text of the
    message; the replies are not awaited. *)
Definition add_series (text : string) : M unit :=
  let seriesId := split " "%char text !! 1%nat in
  match seriesId with
  | Some sid =>
      if truthy seriesId then
        existing ← findOneSeries sid;
        match existing with
        | None => set_series (insertOne sid);; post_call (Reply (addedText sid))
        | Some _ => post_call (Reply rejectedText)
        end
      else post_call (Reply rejectedText)
  | None => post_call (Reply rejectedText)
  end.

(** [bot.action(/remove_(.+)/, ...)] (lines 225-236) on the captured
    series id. *)
Definition remove_series (seriesId : string) : M unit :=
  modify (fun w => mkWorld (seriesCollection w) (reactionsCollection w)
                           (lastNotifiedEpisodes w) (requests w) (outbox w)
                           (console w ++ [RemovingSeries seriesId]));;
  set_series (deleteOne seriesId);;
  await_call (EditMessageText (removedText seriesId)).

(** ** Reaction taps *)

(** The tail of the reaction handler, from [getReactions] on. *)
Definition refreshButtons (r : Reaction) (episodeId : string) : M unit :=
  reactions ← getReactions (StrKey episodeId);
  try_catch (await_call (EditMessageReplyMarkup episodeId reactions))
            (fun _ => console_error ErrorUpdatingMarkup);;
  post_call (AnswerCbQuery r).

(** [bot.action(/(like|love|angry)_(.+)/, ...)] (lines 262-301) on the two
    captures and the id of the sender.  The branch for an unchanged reaction
    is the bare [return] of line 276. *)
Definition reaction_action (r : Reaction) (episodeId : string) (userId : Z)
  : M unit :=
  existingReaction ← findOneReaction (StrKey episodeId) userId;
  match existingReaction with
  | Some existing =>
      if decide (reaction existing ≠ r) then
        set_reactions (updateOne (StrKey episodeId) userId r);;
        refreshButtons r episodeId
      else mret tt
  | None =>
      set_reactions (insertOne (mkReaction (StrKey episodeId) userId r));;
      refreshButtons r episodeId
  end.

End Bot.

(** ** Notions used to state the properties *)

(** The resolver leaves the collections, the watermark and the chat trace
    alone. *)
Definition sameState (w w' : World) : Prop :=
  seriesCollection w' = seriesCollection w /\
  reactionsCollection w' = reactionsCollection w /\
  lastNotifiedEpisodes w' = lastNotifiedEpisodes w /\
  outbox w' = outbox w.

(** A season whose fetch answers and leaves nothing after the filter. *)
Definition noneEligible (r : Response (list Episode)) : Prop :=
  match r with
  | Fault => False
  | Body None => True
  | Body (Some eps) => filter (fun ep => validEpisode ep = true) eps = []
  end.

(** The request [r], made after the requests [h], hits a fault. *)
Definition faulted (gw : Gateway) (h : list Request) (r : Request) : Prop :=
  match r with
  | SummaryReq seriesId => summaryResponse gw h seriesId = Fault
  | EpisodesReq seriesId season => episodesResponse gw h seriesId season = Fault
  end.

(** The seasons listed by a summary answer; none when it has no list. *)
Definition listedSeasons (r : Response SeriesSummary) : list Season :=
  match r with
  | Body (Some (mkSummary (Some l))) => l
  | _ => []
  end.

(** The (episode, user) pair a reaction record is filed under. *)
Definition keys (coll : list ReactionRecord) : list (EpisodeKey * Z) :=
  map (fun d => (episodeId d, userId d)) coll.

(** At most one record per (episode, user) pair. *)
Definition uniquePairs (coll : list ReactionRecord) : Prop := NoDup (keys coll).

(** The number of records among [docs] that carry the reaction [r]. *)
Definition countOf (r : Reaction) (docs : list ReactionRecord) : nat :=
  length (filter (fun d => reaction d = r) docs).

(** [reactionCounts[r]]. *)
Definition countFor (c : reactionCounts) (r : Reaction) : nat :=
  match r with
  | Like => like c
  | Love => love c
  | Angry => angry c
  end.

(** The count of the first group filed under [r], zero without one. *)
Fixpoint groupCount (r : Reaction) (groups : list (Reaction * nat)) : nat :=
  match groups with
  | [] => 0
  | (r', n) :: rest => if decide (r' = r) then n else groupCount r rest
  end.

(** A reaction tap: the reaction, the episode id of the callback data and
    the id of the sender. *)
Record Tap := mkTap {
  tapReaction : Reaction;
  tapEpisode : string;
  tapUser : Z
}.

(** The handler run on a series of taps, one after the other. *)
Fixpoint tapAll (transport : Transport) (taps : list Tap) (w : World) : World :=
  match taps with
  | [] => w
  | t :: rest =>
      tapAll transport rest
        (reaction_action transport (tapReaction t) (tapEpisode t) (tapUser t) w).2
  end.

(** ** A scenario *)

(** Series [S] has aired seasons 1 and 2; season 2 holds one entry without a
    synopsis, season 1 two complete episodes. *)
Definition placeholder : Episode :=
  mkEpisode 201 (Some "TBA") None (Some "episodes/201.jpg") 2 1.

Definition pilot : Episode :=
  mkEpisode 101 (Some "Pilot") (Some "It begins.") (Some "episodes/101.jpg") 1 1.

Definition finale : Episode :=
  mkEpisode 102 (Some "Finale") (Some "It ends.") (Some "episodes/102.jpg") 1 2.

Definition scenarioGateway : Gateway :=
  mkGateway
    (fun _ _ => Body (Some (mkSummary (Some [1; 2]%Z))))
    (fun _ _ season =>
       if decide (season = 2%Z) then Body (Some [placeholder])
       else Body (Some [pilot; finale])).

(** The same provider, with the episode list of season 2 out of reach. *)
Definition flakyGateway : Gateway :=
  mkGateway
    (fun _ _ => Body (Some (mkSummary (Some [1; 2]%Z))))
    (fun _ _ season =>
       if decide (season = 2%Z) then Fault
       else Body (Some [pilot; finale])).

Definition delivering : Transport := fun _ _ => true.

Definition freshWorld : World := mkWorld [] [] ∅ [] [] [].

(** User 7 has liked episode [E1]; series 121361 is tracked. *)
Definition likedWorld : World :=
  mkWorld ["121361"] [mkReaction (StrKey "E1") 7 Like] ∅ [] [] [].

(** ** The manual command *)

Section Commands.

Context (gw : Gateway) (transport : Transport).

(** A value spliced into a template literal: [undefined] prints as the word. *)
Definition templateText (v : option string) : string :=
  match v with
  | Some s => s
  | None => "undefined"
  end.

Definition latestErrorText : string := "Error fetching latest episode.".

(** [bot.command('latest_episode', ...)] (lines 184-192) on the text of the
    message and the id of the chat it came from.  The id is not checked: a
    missing one goes into the URL as it prints. *)
Definition latest_episode (text : string) (chatId : Z) : M unit :=
  let seriesId := split " "%char text !! 1%nat in
  latestEpisode ← fetchLatestEpisode gw (templateText seriesId);
  match latestEpisode with
  | Some _ => sendLatestEpisodeNotification transport latestEpisode chatId
  | None => post_call (Reply latestErrorText)
  end.

End Commands.

(** ** The series list *)

(** The body of [/series/<id>]; the name itself may be missing. *)
Record SeriesInfo := mkSeriesInfo {
  seriesName : option string
}.

(** An inline button as [Markup.button.callback(text, data)] builds it; the
    text is whatever [fetchSeriesName] returned. *)
Record Button := mkButton {
  buttonText : option string;
  callback_data : string
}.

Global Instance Button_eq_dec : EqDecision Button.
Proof. solve_decision. Defined.

(** The calls of the list handlers: a plain reply, a reply with the buttons
    handed to [Markup.inlineKeyboard(buttons, { columns: 1 })], and an edit
    of the message with a keyboard given row by row. *)
Inductive ListCall : Type :=
| ReplyText (text : string)
| ReplyButtons (text : string) (buttons : list Button)
| EditKeyboard (text : string) (rows : list (list Button)).

Global Instance ListCall_eq_dec : EqDecision ListCall.
Proof. solve_decision. Defined.

Inductive ListLine : Type :=
| NoSeriesFound (seriesId : string)
| ErrorFetchingName
| SelectedSeries (name : option string) (seriesId : string).

(** The state the list handlers work on: the process state, which they only
    read, with the name requests, chat calls and console lines they add. *)
Record Desk := mkDesk {
  world : World;
  nameRequests : list string;
  listCalls : list ListCall;
  listConsole : list ListLine
}.

Inductive ListOutcome (A : Type) : Type :=
| Done (a : A)
| Rejected (c : ListCall).
Arguments Done {A} a.
Arguments Rejected {A} c.

Definition D (A : Type) : Type := Desk -> ListOutcome A * Desk.

Global Instance D_ret : MRet D := fun A a d => (Done a, d).
Global Instance D_bind : MBind D := fun A B f m d =>
  match m d with
  | (Done a, d') => f a d'
  | (Rejected c, d') => (Rejected c, d')
  end.

Definition unknownSeries : string := "Unknown Series".
Definition noSeriesText : string := "No series added.".
Definition seriesListText : string := "Series List:".

Section SeriesList.

(** The provider's answer to [/series/<id>], after the name requests made so
    far, and the transport's verdict on an awaited call. *)
Context (nameResponse : list string -> string -> Response SeriesInfo)
        (listTransport : list ListCall -> ListCall -> bool).

Definition list_log (l : ListLine) : D unit := fun d =>
  (Done tt, mkDesk (world d) (nameRequests d) (listCalls d) (listConsole d ++ [l])).

Definition list_post (c : ListCall) : D unit := fun d =>
  (Done tt, mkDesk (world d) (nameRequests d) (listCalls d ++ [c]) (listConsole d)).

Definition list_await (c : ListCall) : D unit := fun d =>
  let d' := mkDesk (world d) (nameRequests d) (listCalls d ++ [c]) (listConsole d) in
  if listTransport (listCalls d) c then (Done tt, d') else (Rejected c, d').

(** [fetchSeriesName] (lines 81-100): both failure paths log and give the
    placeholder. *)
Definition fetchSeriesName (seriesId : string) : D (option string) := fun d =>
  let d' := mkDesk (world d) (nameRequests d ++ [seriesId]) (listCalls d)
                   (listConsole d) in
  match nameResponse (nameRequests d) seriesId with
  | Fault => (list_log ErrorFetchingName;; mret (Some unknownSeries)) d'
  | Body None => (list_log (NoSeriesFound seriesId);; mret (Some unknownSeries)) d'
  | Body (Some info) => (Done (seriesName info), d')
  end.

(** The [for ... of] loop of both list handlers: one awaited name lookup per
    document, each button pushed at the end. *)
Fixpoint pushButtons (seriesList : list string) (buttons : list Button)
  : D (list Button) :=
  match seriesList with
  | [] => mret buttons
  | seriesId :: rest =>
      name ← fetchSeriesName seriesId;
      pushButtons rest (buttons ++ [mkButton name ("series_" +:+ seriesId)])
  end.

(** [bot.command('list_series', ...)] (lines 195-207). *)
Definition list_series : D unit := fun d =>
  match seriesCollection (world d) with
  | [] => list_post (ReplyText noSeriesText) d
  | seriesList =>
      (buttons ← pushButtons seriesList [];
       list_await (ReplyButtons seriesListText buttons)) d
  end.

(** [bot.action('back_to_list', ...)] (lines 239-255). *)
Definition back_to_list : D unit := fun d =>
  match seriesCollection (world d) with
  | [] => list_post (ReplyText noSeriesText) d
  | seriesList =>
      (buttons ← pushButtons seriesList [];
       list_await (EditKeyboard seriesListText (map (fun b => [b]) buttons))) d
  end.

(** [bot.action(/series_(.+)/, ...)] (lines 210-222) on the captured id. *)
Definition series_action (seriesId : string) : D unit :=
  name ← fetchSeriesName seriesId;
  list_log (SelectedSeries name seriesId);;
  list_await
    (EditKeyboard ("Selected series: " +:+ templateText name)
       [[mkButton (Some "❌ Remove") ("remove_" +:+ seriesId)];
        [mkButton (Some "🔙 Back to list") "back_to_list"]]).

End SeriesList.

(** ** More notions used to state the properties *)

(** No record is filed under a number: every [episodeId] is a string, as the
    reaction handler writes them. *)
Definition handlerWritten (coll : list ReactionRecord) : Prop :=
  Forall (fun d => match episodeId d with
                   | StrKey _ => True
                   | NumKey _ => False
                   end) coll.

(** The string has no space in it. *)
Fixpoint spaceFree (s : string) : bool :=
  match s with
  | EmptyString => true
  | String c rest => negb (bool_decide (c = " "%char)) && spaceFree rest
  end.

(** The label a series gets in the list: the provider's name, the
    placeholder when the lookup fails or has no data. *)
Definition labelOf (r : Response SeriesInfo) : option string :=
  match r with
  | Fault => Some unknownSeries
  | Body None => Some unknownSeries
  | Body (Some info) => seriesName info
  end.

(** A provider out of reach, and a transport that refuses everything. *)
Definition downGateway : Gateway :=
  mkGateway (fun _ _ => Fault) (fun _ _ _ => Fault).

Definition refusing : Transport := fun _ _ => false.

(** * Properties *)

(** ** Arrays *)

Lemma pop_snoc {A} (l : list A) (x : A) : pop (l ++ [x]) = Some (x, l).
Proof.
  induction l as [|y l IH]; simpl; [reflexivity|].
  rewrite IH. reflexivity.
Qed.

Lemma pop_nil_inv {A} (l : list A) : pop l = None -> l = [].
Proof.
  destruct l as [|x t]; [reflexivity|]. simpl.
  destruct (pop t) as [[y t']|]; discriminate.
Qed.

Lemma pop_last {A} (l : list A) : fst <$> pop l = last l.
Proof.
  induction l as [|x l _] using rev_ind; [reflexivity|].
  rewrite pop_snoc, last_snoc. reflexivity.
Qed.

Lemma pop_removes_one {A} (l : list A) :
  match pop l with
  | Some (x, l') => l = l' ++ [x] /\ S (length l') = length l
  | None => l = []
  end.
Proof.
  induction l as [|x l _] using rev_ind; [reflexivity|].
  rewrite pop_snoc, length_app. simpl. split; [reflexivity | lia].
Qed.

(** ** The resolver *)


Lemma sameState_refl w : sameState w w.
Proof. repeat split. Qed.

Lemma sameState_trans w1 w2 w3 :
  sameState w1 w2 -> sameState w2 w3 -> sameState w1 w3.
Proof.
  intros (a & b & c & d) (a' & b' & c' & d').
  repeat split; congruence.
Qed.



Section Resolver.

Context (gw : Gateway).

Lemma fetchValidEpisodes_run seriesId season w :
  fetchValidEpisodes gw seriesId season w =
  let w1 := (record_request (EpisodesReq seriesId season) w).2 in
  match episodesResponse gw (requests w) seriesId season with
  | Fault => (Thrown (FetchError (EpisodesReq seriesId season)), w1)
  | Body None | Body (Some []) =>
      (Returned [], (console_error (NoEpisodesForSeason season) w1).2)
  | Body (Some eps) =>
      (Returned (filter (fun ep => validEpisode ep = true) eps), w1)
  end.
Proof.
  unfold fetchValidEpisodes, fetchJson, mbind, M_bind. simpl.
  destruct (episodesResponse gw (requests w) seriesId season) as [|[[|e l]|]];
    reflexivity.
Qed.

Lemma seasonWalk_step seriesId seasons w :
  seasonWalk gw seriesId seasons w =
  match pop seasons with
  | None => (console_error NoValidEpisodes;; mret None) w
  | Some (latestSeason, rest) =>
      match fetchValidEpisodes gw seriesId latestSeason w with
      | (Thrown e, w') => (Thrown e, w')
      | (Returned validEpisodes, w') =>
          match pop validEpisodes with
          | Some (ep, _) => (Returned (Some ep), w')
          | None => seasonWalk gw seriesId rest w'
          end
      end
  end.
Proof.
  funelim (seasonWalk gw seriesId seasons w);
    repeat match goal with
           | E : pop _ = _ |- _ => rewrite E
           | E : fetchValidEpisodes _ _ _ _ = _ |- _ => rewrite E
           end; reflexivity.
Qed.

(** One season fetched, whatever the answer: the request is logged and
    nothing else of the state moves. *)
Lemma fetchValidEpisodes_effect seriesId season w :
  requests (fetchValidEpisodes gw seriesId season w).2
    = requests w ++ [EpisodesReq seriesId season] /\
  sameState w (fetchValidEpisodes gw seriesId season w).2.
Proof.
  rewrite fetchValidEpisodes_run. simpl.
  destruct (episodesResponse gw (requests w) seriesId season) as [|[[|e l]|]];
    simpl; split; try reflexivity; repeat split.
Qed.

Lemma fetchValidEpisodes_none seriesId season w :
  noneEligible (episodesResponse gw (requests w) seriesId season) ->
  (fetchValidEpisodes gw seriesId season w).1 = Returned [].
Proof.
  rewrite fetchValidEpisodes_run. simpl.
  destruct (episodesResponse gw (requests w) seriesId season) as [|[[|e l]|]];
    simpl; intros H; try done. rewrite H. reflexivity.
Qed.

Lemma fetchValidEpisodes_some seriesId season w eps :
  episodesResponse gw (requests w) seriesId season = Body (Some eps) ->
  (fetchValidEpisodes gw seriesId season w).1
    = Returned (filter (fun ep => validEpisode ep = true) eps).
Proof.
  rewrite fetchValidEpisodes_run. simpl. intros ->.
  destruct eps; reflexivity.
Qed.

Lemma fetchValidEpisodes_fault seriesId season w :
  episodesResponse gw (requests w) seriesId season = Fault <->
  exists e, (fetchValidEpisodes gw seriesId season w).1 = Thrown e.
Proof.
  rewrite fetchValidEpisodes_run. simpl.
  destruct (episodesResponse gw (requests w) seriesId season) as [|[[|e l]|]];
    simpl; split; intros H; try done; try (destruct H; done); eauto.
Qed.

Lemma seasonWalk_nil seriesId w :
  seasonWalk gw seriesId [] w
    = (Returned None, (console_error NoValidEpisodes w).2).
Proof. rewrite seasonWalk_step. reflexivity. Qed.

(** Seasons at the end of the array that answer with no valid episode are
    fetched one by one, newest first, and the walk goes on before them. *)
Lemma seasonWalk_skip seriesId post : forall l w,
  (forall t h, t ∈ post -> noneEligible (episodesResponse gw h seriesId t)) ->
  exists w',
    seasonWalk gw seriesId (l ++ post) w = seasonWalk gw seriesId l w' /\
    requests w' = requests w ++ map (EpisodesReq seriesId) (rev post) /\
    sameState w w'.
Proof.
  induction post as [|t post IH] using rev_ind; intros l w Hnone.
  - exists w. simpl. rewrite !app_nil_r.
    auto using sameState_refl.
  - rewrite app_assoc, seasonWalk_step, pop_snoc.
    pose proof (fetchValidEpisodes_effect seriesId t w) as [Hreq Hsame].
    pose proof (fetchValidEpisodes_none seriesId t w) as Hret.
    destruct (fetchValidEpisodes gw seriesId t w) as [o w1]. simpl in *.
    rewrite Hret by (apply Hnone; set_solver). simpl.
    destruct (IH l w1) as (w' & Hwalk & Hreq' & Hsame').
    { intros u h Hu. apply Hnone. set_solver. }
    exists w'. split; [exact Hwalk|]. split.
    + rewrite Hreq', Hreq, rev_app_distr. simpl. rewrite <- app_assoc.
      reflexivity.
    + eauto using sameState_trans.
Qed.

(** The walk stops at a season with a valid episode and returns the last. *)
Lemma seasonWalk_hit seriesId pre s eps w :
  episodesResponse gw (requests w) seriesId s = Body (Some eps) ->
  filter (fun ep => validEpisode ep = true) eps <> [] ->
  exists w',
    seasonWalk gw seriesId (pre ++ [s]) w
      = (Returned (last (filter (fun ep => validEpisode ep = true) eps)), w') /\
    requests w' = requests w ++ [EpisodesReq seriesId s] /\
    sameState w w'.
Proof.
  intros Hresp Hne.
  rewrite seasonWalk_step, pop_snoc.
  pose proof (fetchValidEpisodes_effect seriesId s w) as [Hreq Hsame].
  pose proof (fetchValidEpisodes_some seriesId s w eps Hresp) as Hret.
  destruct (fetchValidEpisodes gw seriesId s w) as [o w1]. simpl in *.
  subst o. rewrite <- pop_last.
  destruct (pop (filter (fun ep => validEpisode ep = true) eps))
    as [[ep rest]|] eqn:Hpop.
  - exists w1. auto.
  - apply pop_nil_inv in Hpop. contradiction.
Qed.

(** What the walk requests, in general: the seasons of a final segment of
    the array, last one first; a faulting request ends it with a throw. *)
Lemma seasonWalk_trace seriesId seasons : forall w,
  exists consulted pre,
    seasons = pre ++ rev consulted /\
    requests (seasonWalk gw seriesId seasons w).2
      = requests w ++ map (EpisodesReq seriesId) consulted /\
    sameState w (seasonWalk gw seriesId seasons w).2 /\
    forall i t,
      consulted !! i = Some t ->
      episodesResponse gw
        (requests w ++ map (EpisodesReq seriesId) (take i consulted))
        seriesId t = Fault ->
      S i = length consulted /\
      exists e, (seasonWalk gw seriesId seasons w).1 = Thrown e.
Proof.
  induction seasons as [|s l IH] using rev_ind; intros w.
  - exists [], []. rewrite seasonWalk_nil. simpl. rewrite app_nil_r.
    split; [reflexivity|]. split; [reflexivity|].
    split; [repeat split|]. intros i t Hi. destruct i; discriminate.
  - rewrite seasonWalk_step, pop_snoc.
    pose proof (fetchValidEpisodes_effect seriesId s w) as [Hreq Hsame].
    pose proof (fetchValidEpisodes_fault seriesId s w) as Hfault.
    destruct (fetchValidEpisodes gw seriesId s w) as [[valid|e] w1];
      simpl in *.
    + assert (Hok : episodesResponse gw (requests w) seriesId s <> Fault).
      { intros F. apply Hfault in F as [e F]. discriminate. }
      destruct (pop valid) as [[ep rest]|].
      * exists [s], l. simpl.
        split; [reflexivity|]. split; [exact Hreq|]. split; [exact Hsame|].
        intros i t Hi Hf. destruct i as [|i]; simpl in *; [|discriminate].
        injection Hi as <-. rewrite app_nil_r in Hf. contradiction.
      * destruct (IH w1) as (consulted & pre & Hl & Hreq' & Hsame' & Hstop).
        exists (s :: consulted), pre. simpl.
        split; [rewrite Hl, app_assoc; reflexivity|].
        split; [rewrite Hreq', Hreq, <- app_assoc; reflexivity|].
        split; [eauto using sameState_trans|].
        intros i t Hi Hf. destruct i as [|i]; simpl in *.
        { injection Hi as <-. rewrite app_nil_r in Hf. contradiction. }
        destruct (Hstop i t Hi) as [Hlen Hthrow]; [|auto].
        rewrite Hreq, <- app_assoc. exact Hf.
    + exists [s], l. simpl.
        split; [reflexivity|]. split; [exact Hreq|]. split; [exact Hsame|].
        intros i t Hi Hf. destruct i as [|i]; simpl in *; [|discriminate].
        eauto.
Qed.


Lemma fetchLatestEpisode_run seriesId w :
  fetchLatestEpisode gw seriesId w =
  let w1 := (record_request (SummaryReq seriesId) w).2 in
  match summaryResponse gw (requests w) seriesId with
  | Fault => (Returned None, (console_error ErrorFetchingLatest w1).2)
  | Body (Some (mkSummary (Some (s :: l)))) =>
      match seasonWalk gw seriesId (s :: l) w1 with
      | (Returned r, w2) => (Returned r, w2)
      | (Thrown _, w2) =>
          (Returned None, (console_error ErrorFetchingLatest w2).2)
      end
  | Body _ => (Returned None, (console_error NoAiredSeasons w1).2)
  end.
Proof.
  unfold fetchLatestEpisode, try_catch, fetchJson, mbind, M_bind. simpl.
  destruct (summaryResponse gw (requests w) seriesId) as [|[[[[|s l]|]]|]];
    reflexivity.
Qed.

(** The resolver as a whole: it always returns, asks for the summary once
    and then for the seasons of a final segment of the list, last first, and
    any fault is the last thing it asked for and gives [null]. *)
Lemma fetchLatestEpisode_trace seriesId w :
  exists consulted pre,
    listedSeasons (summaryResponse gw (requests w) seriesId)
      = pre ++ rev consulted /\
    requests (fetchLatestEpisode gw seriesId w).2
      = requests w ++ SummaryReq seriesId :: map (EpisodesReq seriesId) consulted /\
    sameState w (fetchLatestEpisode gw seriesId w).2 /\
    (exists r, (fetchLatestEpisode gw seriesId w).1 = Returned r) /\
    forall i r,
      (SummaryReq seriesId :: map (EpisodesReq seriesId) consulted) !! i = Some r ->
      faulted gw
        (requests w ++
           take i (SummaryReq seriesId :: map (EpisodesReq seriesId) consulted)) r ->
      S i = S (length consulted) /\
      (fetchLatestEpisode gw seriesId w).1 = Returned None.
Proof.
  rewrite fetchLatestEpisode_run. cbv zeta.
  destruct (summaryResponse gw (requests w) seriesId)
    as [|[[[[|s l]|]]|]] eqn:Hsum; simpl.
  1,2,4,5: exists [], (listedSeasons (summaryResponse gw (requests w) seriesId));
    rewrite Hsum; simpl; rewrite ?app_nil_r;
    (split; [reflexivity|]); (split; [reflexivity|]);
    (split; [repeat split|]); (split; [eauto|]);
    intros i q Hi Hf; (destruct i as [|i]; simpl in *; [|discriminate]);
    injection Hi as <-; simpl in Hf; rewrite app_nil_r in Hf;
    (split; [reflexivity | congruence]).
  set (w1 := mkWorld _ _ _ _ _ _).
  assert (Hw1 : sameState w w1) by (repeat split).
  assert (Hr1 : requests w1 = requests w ++ [SummaryReq seriesId])
    by reflexivity.
  clearbody w1.
  destruct (seasonWalk_trace seriesId (s :: l) w1)
    as (consulted & pre & Hl & Hreq & Hsame & Hstop).
  exists consulted, pre. split; [exact Hl|].
  rewrite Hr1 in Hreq.
  assert (Hhist : forall i, (requests w ++ [SummaryReq seriesId]) ++
             map (EpisodesReq seriesId) (take i consulted)
           = requests w ++ SummaryReq seriesId ::
               take i (map (EpisodesReq seriesId) consulted)).
  { intros i. rewrite <- app_assoc, fmap_take. reflexivity. }
  destruct (seasonWalk gw seriesId (s :: l) w1) as [[r|e] w2] eqn:Hwalk;
    simpl in *.
  - split; [rewrite Hreq, <- app_assoc; reflexivity|].
    split; [eauto using sameState_trans|]. split; [eauto|].
    intros i q Hi Hf. destruct i as [|i]; simpl in *.
    { injection Hi as <-. simpl in Hf. rewrite app_nil_r in Hf. congruence. }
    rewrite list_lookup_fmap in Hi.
    destruct (consulted !! i) as [t|] eqn:Ht; simpl in Hi; [|discriminate].
    injection Hi as <-. simpl in Hf.
    destruct (Hstop i t Ht) as [_ [e He]]; [|discriminate].
    rewrite Hr1, Hhist. exact Hf.
  - split; [rewrite Hreq, <- app_assoc; reflexivity|].
    split.
    { destruct Hw1 as (a & b & c & d), Hsame as (a' & b' & c' & d').
      repeat split; simpl; congruence. }
    split; [eauto|].
    intros i q Hi Hf. destruct i as [|i]; simpl in *.
    { injection Hi as <-. simpl in Hf. rewrite app_nil_r in Hf. congruence. }
    rewrite list_lookup_fmap in Hi.
    destruct (consulted !! i) as [t|] eqn:Ht; simpl in Hi; [|discriminate].
    injection Hi as <-. simpl in Hf.
    destruct (Hstop i t Ht) as [Hlen _]; [|split; [lia|reflexivity]].
    rewrite Hr1, Hhist. exact Hf.
Qed.

End Resolver.

(** C1.  When the summary lists the aired seasons in ascending order, the
    resolver asks for the seasons from the last one backward.  At the first
    season whose episode list keeps something after the filter on title,
    synopsis and thumbnail (taken in the provider's order) it returns the
    last element of that filtered list; the seasons it went through are
    exactly the more recent ones and no older season is requested.  When
    every listed season answers with nothing valid it returns [null], having
    asked for each of them. *)
Theorem fetchLatestEpisode_latest_valid gw seriesId seasons w :
  summaryResponse gw (requests w) seriesId
    = Body (Some (mkSummary (Some seasons))) ->
  StronglySorted Z.lt seasons ->
  (forall pre s post eps,
      seasons = pre ++ s :: post ->
      (forall t h, t ∈ post -> noneEligible (episodesResponse gw h seriesId t)) ->
      (forall h, episodesResponse gw h seriesId s = Body (Some eps)) ->
      filter (fun ep => validEpisode ep = true) eps <> [] ->
      (fetchLatestEpisode gw seriesId w).1
        = Returned (last (filter (fun ep => validEpisode ep = true) eps)) /\
      requests (fetchLatestEpisode gw seriesId w).2
        = requests w ++
          SummaryReq seriesId :: map (EpisodesReq seriesId) (rev post ++ [s]) /\
      Forall (fun t => (s < t)%Z) post /\
      Forall (fun t => (t < s)%Z) pre)
  /\
  ((forall t h, t ∈ seasons -> noneEligible (episodesResponse gw h seriesId t)) ->
      (fetchLatestEpisode gw seriesId w).1 = Returned None /\
      requests (fetchLatestEpisode gw seriesId w).2
        = requests w ++
          SummaryReq seriesId :: map (EpisodesReq seriesId) (rev seasons)).
Proof.
  intros Hsum Hsorted. split.
  - intros pre s post eps Hsplit Hnone Hhit Hvalid.
    rewrite fetchLatestEpisode_run, Hsum. cbv zeta.
    destruct seasons as [|s0 l0]; [destruct pre; discriminate|].
    set (w1 := (record_request (SummaryReq seriesId) w).2).
    assert (Hr1 : requests w1 = requests w ++ [SummaryReq seriesId])
      by reflexivity.
    clearbody w1. rewrite Hsplit.
    replace (pre ++ s :: post) with ((pre ++ [s]) ++ post)
      by (rewrite <- app_assoc; reflexivity).
    destruct (seasonWalk_skip gw seriesId post (pre ++ [s]) w1 Hnone)
      as (w2 & -> & Hr2 & _).
    destruct (seasonWalk_hit gw seriesId pre s eps w2 (Hhit _) Hvalid)
      as (w3 & -> & Hr3 & _).
    simpl. split; [reflexivity|]. split.
    + rewrite Hr3, Hr2, Hr1, map_app. simpl.
      rewrite <- !app_assoc. reflexivity.
    + rewrite Hsplit in Hsorted.
      apply StronglySorted_app in Hsorted as (Hcross & _ & Hsuffix).
      apply StronglySorted_cons in Hsuffix as [Hnewer _].
      split; [exact Hnewer|].
      apply Forall_forall. intros t Ht. apply Hcross; set_solver.
  - intros Hnone.
    rewrite fetchLatestEpisode_run, Hsum. cbv zeta.
    destruct seasons as [|s0 l0]; [simpl; auto|].
    set (w1 := (record_request (SummaryReq seriesId) w).2).
    assert (Hr1 : requests w1 = requests w ++ [SummaryReq seriesId])
      by reflexivity.
    clearbody w1.
    destruct (seasonWalk_skip gw seriesId (s0 :: l0) [] w1 Hnone)
      as (w2 & Hwalk & Hr2 & _).
    simpl app in Hwalk. rewrite Hwalk, seasonWalk_nil. simpl.
    split; [reflexivity|].
    rewrite Hr2, Hr1, <- app_assoc. reflexivity.
Qed.

(** The scenario: season 2 only holds the entry without synopsis, so the
    resolver goes on to season 1 and returns its last complete episode. *)
Lemma fetchLatestEpisode_latest_valid_witness :
  (fetchLatestEpisode scenarioGateway "S" freshWorld).1 = Returned (Some finale) /\
  requests (fetchLatestEpisode scenarioGateway "S" freshWorld).2
    = [SummaryReq "S"; EpisodesReq "S" 2; EpisodesReq "S" 1].
Proof.
  destruct (fetchLatestEpisode_latest_valid scenarioGateway "S" [1; 2]%Z freshWorld)
    as [Hhit _].
  - reflexivity.
  - repeat constructor; lia.
  - destruct (Hhit [] 1%Z [2%Z] [pilot; finale]) as (Hres & Hreq & _).
    + reflexivity.
    + intros t h Ht. apply list_elem_of_singleton in Ht. subst t. reflexivity.
    + intros h. reflexivity.
    + discriminate.
    + split; [exact Hres | exact Hreq].
Defined.

(** C6.  Whenever a request of the resolver hits a transport or parse fault,
    be it the summary or any season's episode list, the call returns [null]
    (it does not reject), and that request is the last one the call makes:
    nothing is asked again. *)
Theorem fetchLatestEpisode_fault_gives_null gw seriesId w trace i r :
  requests (fetchLatestEpisode gw seriesId w).2 = requests w ++ trace ->
  trace !! i = Some r ->
  faulted gw (requests w ++ take i trace) r ->
  (fetchLatestEpisode gw seriesId w).1 = Returned None /\
  S i = length trace.
Proof.
  intros Htrace Hi Hfault.
  destruct (fetchLatestEpisode_trace gw seriesId w)
    as (consulted & pre & _ & Hreq & _ & _ & Hstop).
  rewrite Hreq in Htrace. apply app_inv_head in Htrace. subst trace.
  destruct (Hstop i r Hi Hfault) as [Hlen Hnull].
  split; [exact Hnull|]. simpl. rewrite length_map. exact Hlen.
Qed.

(** With the episode list of season 2 out of reach, the call gives [null]
    and season 1 is not asked for. *)
Lemma fetchLatestEpisode_fault_gives_null_witness :
  (fetchLatestEpisode flakyGateway "S" freshWorld).1 = Returned None /\
  2 = length [SummaryReq "S"; EpisodesReq "S" 2].
Proof.
  apply (fetchLatestEpisode_fault_gives_null flakyGateway "S" freshWorld
           [SummaryReq "S"; EpisodesReq "S" 2] 1 (EpisodesReq "S" 2));
    reflexivity.
Defined.

(** C10.  Each [pop] takes exactly one element off the array, so the season
    walk ends: the resolver always returns, and after the summary it fetches
    the seasons of a final segment of the listed seasons, last one first.
    With [n] seasons listed there are at most [n] season fetches, and no
    season is fetched more often than it is listed. *)
Theorem fetchLatestEpisode_bounded_walk gw seriesId w :
  (forall l : list Season,
      match pop l with
      | Some (x, l') => l = l' ++ [x] /\ S (length l') = length l
      | None => l = []
      end) /\
  exists consulted pre,
    listedSeasons (summaryResponse gw (requests w) seriesId)
      = pre ++ rev consulted /\
    (exists result, (fetchLatestEpisode gw seriesId w).1 = Returned result) /\
    requests (fetchLatestEpisode gw seriesId w).2
      = requests w ++ SummaryReq seriesId :: map (EpisodesReq seriesId) consulted /\
    length consulted
      <= length (listedSeasons (summaryResponse gw (requests w) seriesId)) /\
    forall t,
      count_occ Z.eq_dec consulted t
      <= count_occ Z.eq_dec
           (listedSeasons (summaryResponse gw (requests w) seriesId)) t.
Proof.
  split; [intros l; apply pop_removes_one|].
  destruct (fetchLatestEpisode_trace gw seriesId w)
    as (consulted & pre & Hl & Hreq & _ & Hret & _).
  exists consulted, pre. rewrite Hl.
  split; [reflexivity|]. split; [exact Hret|]. split; [exact Hreq|].
  split.
  - rewrite length_app, length_rev. lia.
  - intros t. rewrite count_occ_app, count_occ_rev. lia.
Qed.

(** ** The reactions collection *)

Lemma sameUserEpisode_spec e u d :
  sameUserEpisode e u d = true <-> episodeId d = e /\ userId d = u.
Proof.
  unfold sameUserEpisode.
  rewrite andb_true_iff, !bool_decide_eq_true. reflexivity.
Qed.

Lemma find_none_keys e u coll :
  List.find (sameUserEpisode e u) coll = None <-> (e, u) ∉ keys coll.
Proof.
  unfold keys. induction coll as [|d coll IH]; simpl.
  - split; [intros _; apply not_elem_of_nil | reflexivity].
  - rewrite not_elem_of_cons.
    destruct (sameUserEpisode e u d) eqn:E.
    + apply sameUserEpisode_spec in E as [He Hu]. subst e u.
      split; [discriminate | intros [H _]; contradiction].
    + rewrite IH. split; [|tauto]. intros H. split; [|exact H].
      intros [= -> ->].
      assert (sameUserEpisode (episodeId d) (userId d) d = true)
        by (apply sameUserEpisode_spec; auto).
      congruence.
Qed.

Lemma find_some_key e u coll d :
  List.find (sameUserEpisode e u) coll = Some d ->
  episodeId d = e /\ userId d = u.
Proof.
  intros H. apply find_some in H as [_ H].
  apply sameUserEpisode_spec. exact H.
Qed.

Lemma keys_updateOne e u r coll : keys (updateOne e u r coll) = keys coll.
Proof.
  unfold keys. induction coll as [|d coll IH]; simpl; [reflexivity|].
  destruct (sameUserEpisode e u d); simpl; [reflexivity|].
  rewrite IH. reflexivity.
Qed.

Lemma length_updateOne e u r coll : length (updateOne e u r coll) = length coll.
Proof.
  rewrite <- (length_map (fun d => (episodeId d, userId d)) (updateOne e u r coll)).
  fold (keys (updateOne e u r coll)). rewrite keys_updateOne.
  apply length_map.
Qed.

Lemma find_updateOne e u r coll d :
  List.find (sameUserEpisode e u) coll = Some d ->
  List.find (sameUserEpisode e u) (updateOne e u r coll)
    = Some (mkReaction (episodeId d) (userId d) r).
Proof.
  induction coll as [|d0 coll IH]; simpl; [discriminate|].
  destruct (sameUserEpisode e u d0) eqn:E; simpl.
  - intros [= <-].
    assert (sameUserEpisode e u (mkReaction (episodeId d0) (userId d0) r) = true)
      as -> by (apply sameUserEpisode_spec; apply sameUserEpisode_spec in E; exact E).
    reflexivity.
  - rewrite E. exact IH.
Qed.

Lemma find_insertOne e u r coll :
  List.find (sameUserEpisode e u) coll = None ->
  List.find (sameUserEpisode e u) (insertOne (mkReaction e u r) coll)
    = Some (mkReaction e u r).
Proof.
  unfold insertOne. induction coll as [|d0 coll IH]; simpl.
  - intros _.
    assert (sameUserEpisode e u (mkReaction e u r) = true) as ->
      by (apply sameUserEpisode_spec; auto).
    reflexivity.
  - destruct (sameUserEpisode e u d0); [discriminate | exact IH].
Qed.

(** ** The tally *)

Lemma countFor_setCount c k v r :
  countFor (setCount c k v) r = if decide (k = r) then v else countFor c r.
Proof. destruct k, r; reflexivity. Qed.

Lemma groupCount_addToGroup r r' groups :
  groupCount r (addToGroup r' groups)
    = if decide (r' = r) then S (groupCount r groups) else groupCount r groups.
Proof.
  induction groups as [|[k n] groups IH]; simpl.
  - destruct (decide (r' = r)); reflexivity.
  - destruct (decide (k = r')) as [->|Hk]; simpl.
    + destruct (decide (r' = r)); reflexivity.
    + destruct (decide (k = r)) as [->|Hr].
      * destruct (decide (r' = r)); [congruence | reflexivity].
      * exact IH.
Qed.

Lemma addToGroup_fst r groups :
  exists extra, (addToGroup r groups).*1 = groups.*1 ++ extra /\
    (r ∈ groups.*1 -> extra = []) /\ (r ∉ groups.*1 -> extra = [r]).
Proof.
  induction groups as [|[k n] groups IH]; csimpl.
  - exists [r]. split; [reflexivity|]. split; [|reflexivity].
    intros H. inversion H.
  - destruct (decide (k = r)) as [->|Hk]; csimpl.
    + exists []. rewrite app_nil_r. split; [reflexivity|].
      split; [reflexivity|]. intros H. exfalso. apply H, list_elem_of_here.
    + destruct IH as (extra & -> & Hin & Hout).
      exists extra. split; [reflexivity|]. split; intros H.
      * apply Hin. apply elem_of_cons in H as [->|H]; [contradiction | exact H].
      * apply Hout. intros H'. apply H, list_elem_of_further, H'.
Qed.

Lemma addToGroup_NoDup r groups :
  NoDup groups.*1 -> NoDup (addToGroup r groups).*1.
Proof.
  intros Hnd. destruct (addToGroup_fst r groups) as (extra & -> & Hin & Hout).
  destruct (decide (r ∈ groups.*1)) as [H|H].
  - rewrite (Hin H), app_nil_r. exact Hnd.
  - rewrite (Hout H). apply NoDup_app. repeat split; [exact Hnd | | apply NoDup_singleton].
    intros x Hx Hx'. apply list_elem_of_singleton in Hx'. congruence.
Qed.

Lemma groupStage_acc docs : forall groups r,
  NoDup groups.*1 ->
  NoDup (foldl (fun g d => addToGroup (reaction d) g) groups docs).*1 /\
  groupCount r (foldl (fun g d => addToGroup (reaction d) g) groups docs)
    = groupCount r groups + countOf r docs.
Proof.
  induction docs as [|d docs IH]; intros groups r Hnd; csimpl.
  - split; [exact Hnd | unfold countOf; csimpl; lia].
  - destruct (IH (addToGroup (reaction d) groups) r) as [Hnd' Hcount];
      [apply addToGroup_NoDup, Hnd|].
    split; [exact Hnd'|]. rewrite Hcount, groupCount_addToGroup.
    unfold countOf. rewrite filter_cons.
    destruct (decide (reaction d = r)); csimpl; lia.
Qed.

Lemma foldl_setCount groups : forall c r,
  NoDup groups.*1 ->
  countFor (foldl (fun c g => setCount c g.1 g.2) c groups) r
    = if decide (r ∈ groups.*1) then groupCount r groups else countFor c r.
Proof.
  induction groups as [|[k n] groups IH]; intros c r Hnd; csimpl.
  - destruct (decide (r ∈ [])) as [H|_]; [inversion H | reflexivity].
  - apply NoDup_cons in Hnd as [Hk Hnd]. rewrite (IH _ _ Hnd).
    rewrite countFor_setCount.
    destruct (decide (k = r)) as [->|Hkr].
    + destruct (decide (r ∈ groups.*1)); [contradiction|].
      destruct (decide (r ∈ r :: groups.*1)) as [_|Hout]; [reflexivity|].
      exfalso. apply Hout, list_elem_of_here.
    + destruct (decide (r ∈ groups.*1)) as [Hin|Hout],
        (decide (r ∈ k :: groups.*1)) as [Hin'|Hout']; try reflexivity.
      * exfalso. apply Hout', list_elem_of_further, Hin.
      * exfalso. apply elem_of_cons in Hin' as [->|Hin']; contradiction.
Qed.

Lemma groupCount_absent r groups : r ∉ groups.*1 -> groupCount r groups = 0.
Proof.
  induction groups as [|[k n] groups IH]; csimpl; [reflexivity|].
  intros H. apply not_elem_of_cons in H as [Hk H].
  destruct (decide (k = r)); [congruence | auto].
Qed.

(** Each count of the tally is the number of the episode's records with
    that reaction. *)
Lemma tally_counts e coll r :
  countFor (tally e coll) r = countOf r (matchStage e coll).
Proof.
  unfold tally, groupStage.
  destruct (groupStage_acc (matchStage e coll) [] r) as [Hnd Hcount];
    [apply NoDup_nil_2|].
  rewrite foldl_setCount by exact Hnd. simpl in Hcount.
  destruct (decide (r ∈ _)) as [_|Hout]; [exact Hcount|].
  rewrite <- Hcount, groupCount_absent by exact Hout.
  destruct r; reflexivity.
Qed.

Lemma countOf_cons r d docs :
  countOf r (d :: docs)
    = (if decide (reaction d = r) then 1 else 0) + countOf r docs.
Proof.
  unfold countOf. rewrite filter_cons.
  destruct (decide (reaction d = r)); reflexivity.
Qed.

Lemma matchStage_cons e d coll :
  matchStage e (d :: coll)
    = if decide (episodeId d = e) then d :: matchStage e coll
      else matchStage e coll.
Proof. unfold matchStage. rewrite filter_cons. reflexivity. Qed.

(** Overwriting the first record of a pair moves one unit from the old
    reaction to the new one among the episode's records. *)
Lemma updateOne_counts e u r coll d :
  List.find (sameUserEpisode e u) coll = Some d ->
  forall r',
    countOf r' (matchStage e (updateOne e u r coll))
      + (if decide (reaction d = r') then 1 else 0)
    = countOf r' (matchStage e coll) + (if decide (r = r') then 1 else 0).
Proof.
  induction coll as [|d0 coll IH]; simpl; [discriminate|].
  destruct (sameUserEpisode e u d0) eqn:E.
  - intros [= <-] r'. apply sameUserEpisode_spec in E as [He _].
    rewrite !matchStage_cons. simpl.
    destruct (decide (episodeId d0 = e)); [|contradiction].
    rewrite !countOf_cons. simpl. lia.
  - intros Hfind r'. specialize (IH Hfind r').
    rewrite !matchStage_cons.
    destruct (decide (episodeId d0 = e)); [|exact IH].
    rewrite !countOf_cons. lia.
Qed.

Lemma updateOne_matched e u r coll :
  length (matchStage e (updateOne e u r coll)) = length (matchStage e coll).
Proof.
  induction coll as [|d0 coll IH]; simpl; [reflexivity|].
  destruct (sameUserEpisode e u d0); rewrite !matchStage_cons; simpl.
  - destruct (decide (episodeId d0 = e)); reflexivity.
  - destruct (decide (episodeId d0 = e)); simpl; rewrite IH; reflexivity.
Qed.

(** ** The reaction handler *)

Section Taps.

Context (transport : Transport).

Lemma refreshButtons_run r e w :
  refreshButtons transport r e w =
  let edit := EditMessageReplyMarkup e (tally (StrKey e) (reactionsCollection w)) in
  (Returned tt,
   mkWorld (seriesCollection w) (reactionsCollection w)
           (lastNotifiedEpisodes w) (requests w)
           (outbox w ++ [edit; AnswerCbQuery r])
           (if transport (outbox w) edit then console w
            else console w ++ [ErrorUpdatingMarkup])).
Proof.
  unfold refreshButtons, getReactions, try_catch, await_call, post_call,
    record_call, console_error, modify, gets, mbind, M_bind. simpl.
  destruct (transport _ _); simpl; rewrite <- app_assoc; reflexivity.
Qed.

Lemma reaction_action_run r e u w :
  reaction_action transport r e u w =
  match List.find (sameUserEpisode (StrKey e) u) (reactionsCollection w) with
  | Some existing =>
      if decide (reaction existing = r) then (Returned tt, w)
      else refreshButtons transport r e
             (set_reactions (updateOne (StrKey e) u r) w).2
  | None =>
      refreshButtons transport r e
        (set_reactions (insertOne (mkReaction (StrKey e) u r)) w).2
  end.
Proof.
  unfold reaction_action, findOneReaction, mbind, M_bind. simpl.
  destruct (List.find _ _) as [existing|]; [|reflexivity].
  destruct (decide (reaction existing ≠ r)), (decide (reaction existing = r));
    try reflexivity; contradiction.
Qed.

Lemma reaction_action_store r e u w :
  reactionsCollection (reaction_action transport r e u w).2 =
  match List.find (sameUserEpisode (StrKey e) u) (reactionsCollection w) with
  | Some existing =>
      if decide (reaction existing = r) then reactionsCollection w
      else updateOne (StrKey e) u r (reactionsCollection w)
  | None => insertOne (mkReaction (StrKey e) u r) (reactionsCollection w)
  end.
Proof.
  rewrite reaction_action_run.
  destruct (List.find _ _) as [existing|];
    [destruct (decide (reaction existing = r)); [reflexivity|]|];
    rewrite refreshButtons_run; reflexivity.
Qed.

Lemma reaction_action_unique r e u w :
  uniquePairs (reactionsCollection w) ->
  uniquePairs (reactionsCollection (reaction_action transport r e u w).2).
Proof.
  intros Huniq. rewrite reaction_action_store. unfold uniquePairs in *.
  destruct (List.find _ _) as [existing|] eqn:Hfind.
  - destruct (decide (reaction existing = r)); [exact Huniq|].
    rewrite keys_updateOne. exact Huniq.
  - apply find_none_keys in Hfind.
    unfold insertOne, keys in *. rewrite map_app. simpl.
    apply NoDup_app. split; [exact Huniq|]. split; [|apply NoDup_singleton].
    intros k Hk Hk'. apply list_elem_of_singleton in Hk'. congruence.
Qed.

Lemma tapAll_app taps1 taps2 w :
  tapAll transport (taps1 ++ taps2) w
    = tapAll transport taps2 (tapAll transport taps1 w).
Proof.
  revert w. induction taps1 as [|t taps1 IH]; intros w; simpl;
    [reflexivity | apply IH].
Qed.

End Taps.

(** A stored record is the one [findOne] returns for its pair when pairs
    are unique. *)
Lemma find_unique_member coll d :
  uniquePairs coll -> d ∈ coll ->
  List.find (sameUserEpisode (episodeId d) (userId d)) coll = Some d.
Proof.
  unfold uniquePairs, keys.
  induction coll as [|d0 coll IH]; simpl; intros Huniq Hin; [inversion Hin|].
  apply NoDup_cons in Huniq as [Hfresh Huniq].
  destruct (sameUserEpisode (episodeId d) (userId d) d0) eqn:E.
  - apply sameUserEpisode_spec in E as [He Hu].
    apply elem_of_cons in Hin as [->|Hin]; [reflexivity|].
    exfalso. apply Hfresh. rewrite He, Hu.
    apply (list_elem_of_fmap_2 (fun d => (episodeId d, userId d))) in Hin.
    exact Hin.
  - apply elem_of_cons in Hin as [->|Hin]; [|auto].
    assert (sameUserEpisode (episodeId d0) (userId d0) d0 = true)
      by (apply sameUserEpisode_spec; auto).
    congruence.
Qed.

(** C3.  From a reactions collection with at most one record per
    (episode, user) pair, any series of reaction taps leaves at most one
    record per pair.  At each tap of the series a record is appended only
    when the pair has none; otherwise the pairs on file stay as they are,
    in place and in number. *)
Theorem reaction_action_keeps_pairs_unique transport taps w :
  uniquePairs (reactionsCollection w) ->
  uniquePairs (reactionsCollection (tapAll transport taps w)) /\
  forall before t rest,
    taps = before ++ t :: rest ->
    let w0 := tapAll transport before w in
    let w1 := (reaction_action transport (tapReaction t) (tapEpisode t)
                 (tapUser t) w0).2 in
    match List.find (sameUserEpisode (StrKey (tapEpisode t)) (tapUser t))
            (reactionsCollection w0) with
    | None =>
        reactionsCollection w1
          = reactionsCollection w0 ++
            [mkReaction (StrKey (tapEpisode t)) (tapUser t) (tapReaction t)]
    | Some _ => keys (reactionsCollection w1) = keys (reactionsCollection w0)
    end.
Proof.
  intros Huniq. split.
  - revert w Huniq. induction taps as [|t taps IH]; intros w Huniq; simpl;
      [exact Huniq|].
    apply IH, reaction_action_unique, Huniq.
  - intros before t rest _ w0 w1. subst w1.
    rewrite reaction_action_store.
    destruct (List.find _ _) as [existing|]; [|reflexivity].
    destruct (decide (reaction existing = tapReaction t)); [reflexivity|].
    apply keys_updateOne.
Qed.

(** User 7 likes [E1], taps like again, turns angry, then user 8 loves it:
    two records, one per user. *)
Lemma reaction_action_keeps_pairs_unique_witness :
  uniquePairs (reactionsCollection freshWorld) /\
  uniquePairs
    (reactionsCollection
       (tapAll delivering
          [mkTap Like "E1" 7; mkTap Like "E1" 7; mkTap Angry "E1" 7;
           mkTap Love "E1" 8] freshWorld)).
Proof.
  assert (H : uniquePairs (reactionsCollection freshWorld)) by constructor.
  split; [exact H|].
  apply (reaction_action_keeps_pairs_unique delivering
           [mkTap Like "E1" 7; mkTap Like "E1" 7; mkTap Angry "E1" 7;
            mkTap Love "E1" 8] freshWorld H).
Defined.

(** C4.  A second tap with the same episode, user and reaction changes
    nothing: the collection and the episode's tally are those left by the
    first tap, whatever the transport does. *)
Theorem reaction_action_idempotent transport transport' r e u w :
  let once := (reaction_action transport r e u w).2 in
  let twice := (reaction_action transport' r e u once).2 in
  reactionsCollection twice = reactionsCollection once /\
  tally (StrKey e) (reactionsCollection twice)
    = tally (StrKey e) (reactionsCollection once) /\
  reaction_action transport' r e u once = (Returned tt, once).
Proof.
  intros once twice.
  assert (Hnoop : reaction_action transport' r e u once = (Returned tt, once)).
  { rewrite reaction_action_run. subst once.
    rewrite reaction_action_store.
    destruct (List.find _ (reactionsCollection w)) as [existing|] eqn:Hfind.
    - destruct (decide (reaction existing = r)) as [Hsame|Hdiff].
      + rewrite Hfind. destruct (decide (reaction existing = r));
          [reflexivity | contradiction].
      + rewrite (find_updateOne _ _ r _ _ Hfind). simpl.
        destruct (decide (r = r)); [reflexivity | contradiction].
    - rewrite (find_insertOne _ _ r _ Hfind). simpl.
      destruct (decide (r = r)); [reflexivity | contradiction]. }
  subst twice. rewrite Hnoop. auto.
Qed.

(** C5.  When the record on file for the user and the episode is a like, a
    love tap takes one off the like count and adds one to the love count of
    the episode's tally; the angry count, the number of records of the
    episode and the size of the collection stay the same. *)
Theorem reaction_action_like_to_love transport e u w existing :
  List.find (sameUserEpisode (StrKey e) u) (reactionsCollection w)
    = Some existing ->
  reaction existing = Like ->
  let w' := (reaction_action transport Love e u w).2 in
  let before := tally (StrKey e) (reactionsCollection w) in
  let after := tally (StrKey e) (reactionsCollection w') in
  S (like after) = like before /\
  love after = S (love before) /\
  angry after = angry before /\
  length (matchStage (StrKey e) (reactionsCollection w'))
    = length (matchStage (StrKey e) (reactionsCollection w)) /\
  length (reactionsCollection w') = length (reactionsCollection w).
Proof.
  intros Hfind Hlike w' before after. subst w' before after.
  rewrite reaction_action_store, Hfind, Hlike.
  destruct (decide (Like = Love)) as [?|_]; [discriminate|].
  pose proof (updateOne_counts (StrKey e) u Love _ _ Hfind) as Hcount.
  rewrite Hlike in Hcount.
  pose proof (Hcount Like) as HL. pose proof (Hcount Love) as HV.
  pose proof (Hcount Angry) as HA.
  rewrite <- !tally_counts in HL, HV, HA. simpl in HL, HV, HA.
  rewrite updateOne_matched, length_updateOne.
  repeat split; lia.
Qed.

(** User 7 has liked [E1] and taps love: the like count goes from 1 to 0,
    the love count from 0 to 1, and there is one record as before. *)
Lemma reaction_action_like_to_love_witness :
  List.find (sameUserEpisode (StrKey "E1") 7) (reactionsCollection likedWorld)
    = Some (mkReaction (StrKey "E1") 7 Like) /\
  let w' := (reaction_action delivering Love "E1" 7 likedWorld).2 in
  let before := tally (StrKey "E1") (reactionsCollection likedWorld) in
  let after := tally (StrKey "E1") (reactionsCollection w') in
  S (like after) = like before /\
  love after = S (love before) /\
  angry after = angry before /\
  length (matchStage (StrKey "E1") (reactionsCollection w'))
    = length (matchStage (StrKey "E1") (reactionsCollection likedWorld)) /\
  length (reactionsCollection w') = length (reactionsCollection likedWorld).
Proof.
  split; [reflexivity|].
  exact (reaction_action_like_to_love delivering "E1" 7 likedWorld
           (mkReaction (StrKey "E1") 7 Like) eq_refl eq_refl).
Defined.

(** A second like tap by user 7 on [E1] ends with nothing sent: the tap gets
    no toast. *)
Lemma reaction_action_same_tap_unanswered :
  reaction_action delivering Like "E1" 7 likedWorld = (Returned tt, likedWorld) /\
  outbox (reaction_action delivering Like "E1" 7 likedWorld).2 = [].
Proof. split; reflexivity. Qed.

(** C7, as the handler has it.  A tap that files or rewrites a record (the
    pair has no record, or one with another reaction) is answered: the
    handler returns, and its last transport call is the toast for that
    reaction, coming after the refresh of the buttons whether or not the
    refresh went through.  A tap repeating the reaction on file returns at
    once and changes nothing. *)
Theorem reaction_action_toast transport r e u w :
  let run := reaction_action transport r e u w in
  match List.find (sameUserEpisode (StrKey e) u) (reactionsCollection w) with
  | Some existing =>
      if decide (reaction existing = r) then run = (Returned tt, w)
      else
        run.1 = Returned tt /\
        exists buttons,
          outbox run.2
            = outbox w ++ [EditMessageReplyMarkup e buttons; AnswerCbQuery r]
  | None =>
      run.1 = Returned tt /\
      exists buttons,
        outbox run.2
          = outbox w ++ [EditMessageReplyMarkup e buttons; AnswerCbQuery r]
  end.
Proof.
  intros run. subst run. rewrite reaction_action_run.
  destruct (List.find _ _) as [existing|];
    [destruct (decide (reaction existing = r)); [reflexivity|]|];
    rewrite refreshButtons_run; simpl; eauto.
Qed.

(** ** The scheduler's check *)

(** C2, where the code falls short of it.  Series [__proto__] is added by
    the command and the provider answers for it as in the scenario.  The
    first check sends the photo of the finale and returns, yet the watermark
    holds no entry afterwards: the assignment of line 158 is dropped.  The
    second check resolves the same episode and sends the same photo again. *)
Theorem checkForNewEpisode_proto_resends :
  let photo := SendPhoto 1 finale (mkCounts 0 0 0) in
  let reply := Reply (addedText "__proto__") in
  let w0 := (add_series "/add_series __proto__" freshWorld).2 in
  let run1 := checkForNewEpisode scenarioGateway delivering 1 "__proto__" w0 in
  let run2 := checkForNewEpisode scenarioGateway delivering 1 "__proto__"
                run1.2 in
  seriesCollection w0 = ["__proto__"] /\
  (fetchLatestEpisode scenarioGateway "__proto__" w0).1
    = Returned (Some finale) /\
  run1.1 = Returned tt /\
  outbox run1.2 = [reply; photo] /\
  lastNotifiedEpisodes run1.2 = lastNotifiedEpisodes freshWorld /\
  (fetchLatestEpisode scenarioGateway "__proto__" run1.2).1
    = Returned (Some finale) /\
  run2.1 = Returned tt /\
  outbox run2.2 = [reply; photo; photo] /\
  lastNotifiedEpisodes run2.2 = lastNotifiedEpisodes freshWorld.
Proof. vm_compute. repeat split. Qed.

(** Two ticks on the scenario: the first notifies the finale of season 1
    and sets the watermark, the second sends nothing more.  With a transport
    that refuses the photo the watermark stays empty. *)
Example checkForNewEpisode_two_ticks :
  let w1 := (checkForNewEpisode scenarioGateway delivering 1 "S" freshWorld).2 in
  let w2 := (checkForNewEpisode scenarioGateway delivering 1 "S" w1).2 in
  outbox w1 = [SendPhoto 1 finale (mkCounts 0 0 0)] /\
  lastNotifiedEpisodes w1 !! "S" = Some 102%Z /\
  outbox w2 = outbox w1.
Proof. vm_compute. repeat split. Qed.

Example checkForNewEpisode_refused :
  let run := checkForNewEpisode scenarioGateway (fun _ _ => false) 1 "S"
               freshWorld in
  run.1 = Thrown (TransportError (SendPhoto 1 finale (mkCounts 0 0 0))) /\
  lastNotifiedEpisodes run.2 !! "S" = None.
Proof. vm_compute. repeat split. Qed.

(** ** The series directory *)

Lemma find_series_member (seriesId : string) (coll : list string) :
  seriesId ∈ coll ->
  List.find (fun d => bool_decide (d = seriesId)) coll = Some seriesId.
Proof.
  induction coll as [|d coll IH]; simpl; intros Hin; [inversion Hin|].
  destruct (bool_decide (d = seriesId)) eqn:E.
  - apply bool_decide_eq_true in E. congruence.
  - apply bool_decide_eq_false in E.
    apply elem_of_cons in Hin as [->|Hin]; [contradiction | auto].
Qed.

Lemma deleteOne_absent (seriesId : string) (coll : list string) :
  seriesId ∉ coll -> deleteOne seriesId coll = coll.
Proof.
  induction coll as [|d coll IH]; simpl; intros Hout; [reflexivity|].
  apply not_elem_of_cons in Hout as [Hd Hout].
  destruct (decide (d = seriesId)); [congruence|].
  rewrite IH by exact Hout. reflexivity.
Qed.

(** Adding the tracked series 121361 again gives the very outcome of a
    command without any id: the two rejections cannot be told apart. *)
Lemma add_series_duplicate_same_as_missing_id :
  "121361" ∈ seriesCollection likedWorld /\
  add_series "/add_series 121361" likedWorld
    = add_series "/add_series" likedWorld.
Proof. split; [apply list_elem_of_here | reflexivity]. Qed.

(** C8, as the handler has it.  Adding a series id that is already in the
    collection inserts nothing: the membership test comes first and the
    collection is left as it is.  The reply is the one rejection message of
    the handler, the same that a command without an id gets. *)
Theorem add_series_duplicate_rejected text seriesId w :
  split " "%char text !! 1%nat = Some seriesId ->
  seriesId ∈ seriesCollection w ->
  let run := add_series text w in
  run.1 = Returned tt /\
  seriesCollection run.2 = seriesCollection w /\
  outbox run.2 = outbox w ++ [Reply rejectedText] /\
  run = add_series "/add_series" w.
Proof.
  intros Hid Hin run. subst run.
  assert (Hmissing : add_series "/add_series" w
                     = post_call (Reply rejectedText) w) by reflexivity.
  rewrite Hmissing. unfold add_series. rewrite Hid.
  destruct (truthy (Some seriesId)); [|repeat split].
  unfold findOneSeries, gets, mbind, M_bind.
  rewrite (find_series_member _ _ Hin). repeat split.
Qed.

Lemma add_series_duplicate_rejected_witness :
  split " "%char "/add_series 121361" !! 1%nat = Some "121361" /\
  "121361" ∈ seriesCollection likedWorld /\
  seriesCollection (add_series "/add_series 121361" likedWorld).2
    = seriesCollection likedWorld /\
  outbox (add_series "/add_series 121361" likedWorld).2
    = outbox likedWorld ++ [Reply rejectedText].
Proof.
  assert (Hin : "121361" ∈ seriesCollection likedWorld)
    by apply list_elem_of_here.
  destruct (add_series_duplicate_rejected "/add_series 121361" "121361"
              likedWorld eq_refl Hin) as (_ & Hstore & Hout & _).
  split; [reflexivity|]. split; [exact Hin|].
  split; [exact Hstore | exact Hout].
Defined.

(** Removing the untracked id 999 is answered with the confirmation of a
    removal, worded as for the tracked id 121361. *)
Lemma remove_series_untracked_confirms :
("999" ∉ seriesCollection likedWorld) /\
  outbox (remove_series delivering "999" likedWorld).2
    = [EditMessageText "Series with ID 999 removed."] /\
  outbox (remove_series delivering "121361" likedWorld).2
    = [EditMessageText "Series with ID 121361 removed."].
Proof.
  split; [|split; reflexivity].
  intros H. apply list_elem_of_singleton in H. discriminate.
Qed.

(** C9, as the handler has it.  Removing a series id that is not in the
    collection leaves the collection as it is, and the handler edits the
    message to the confirmation of a removal for that id, as it does for a
    tracked one. *)
Theorem remove_series_untracked transport seriesId w :
  seriesId ∉ seriesCollection w ->
  let run := remove_series transport seriesId w in
  seriesCollection run.2 = seriesCollection w /\
  outbox run.2 = outbox w ++ [EditMessageText (removedText seriesId)].
Proof.
  intros Hout run. subst run.
  unfold remove_series, set_series, await_call, record_call, modify,
    mbind, M_bind. simpl.
  rewrite (deleteOne_absent _ _ Hout).
  destruct (transport _ _); auto.
Qed.

Lemma remove_series_untracked_witness :
("999" ∉ seriesCollection likedWorld) /\
  seriesCollection (remove_series delivering "999" likedWorld).2
    = seriesCollection likedWorld /\
  outbox (remove_series delivering "999" likedWorld).2
    = outbox likedWorld ++ [EditMessageText (removedText "999")].
Proof.
  assert (Hout : "999" ∉ seriesCollection likedWorld).
  { intros H. apply list_elem_of_singleton in H. discriminate. }
  split; [exact Hout|].
  exact (remove_series_untracked delivering "999" likedWorld Hout).
Defined.

(** * Further properties *)

(** ** The resolver, whatever the provider answers *)

Section ResolverMore.

Context (gw : Gateway).

(** An episode returned by the walk is the last valid one of the list the
    provider gave for the last season asked. *)
Lemma seasonWalk_result seriesId seasons : forall w ep,
  (seasonWalk gw seriesId seasons w).1 = Returned (Some ep) ->
  exists season eps h,
    requests (seasonWalk gw seriesId seasons w).2
      = h ++ [EpisodesReq seriesId season] /\
    episodesResponse gw h seriesId season = Body (Some eps) /\
    last (filter (fun ep => validEpisode ep = true) eps) = Some ep.
Proof.
  induction seasons as [|s l IH] using rev_ind; intros w ep.
  - rewrite seasonWalk_nil. discriminate.
  - rewrite seasonWalk_step, pop_snoc, fetchValidEpisodes_run. cbv zeta.
    destruct (episodesResponse gw (requests w) seriesId s)
      as [|[[|e0 eps]|]] eqn:Hresp; simpl; try discriminate;
      try (intros Hret; apply IH in Hret; exact Hret).
    pose proof (pop_last (filter (fun ep => validEpisode ep = true) (e0 :: eps)))
      as Hlast.
    destruct (pop (filter (fun ep => validEpisode ep = true) (e0 :: eps)))
      as [[ep' rest]|]; simpl in *.
    + intros [= <-]. exists s, (e0 :: eps), (requests w). auto.
    + intros Hret. apply IH in Hret. exact Hret.
Qed.

End ResolverMore.

(** X1.  Whatever the provider answers, an episode returned by the resolver
    has title, synopsis and thumbnail, and it is the last such episode of
    the list given for the season asked last. *)
Theorem fetchLatestEpisode_only_valid gw seriesId w ep :
  (fetchLatestEpisode gw seriesId w).1 = Returned (Some ep) ->
  validEpisode ep = true /\
  exists season eps h,
    requests (fetchLatestEpisode gw seriesId w).2
      = h ++ [EpisodesReq seriesId season] /\
    episodesResponse gw h seriesId season = Body (Some eps) /\
    last (filter (fun ep => validEpisode ep = true) eps) = Some ep.
Proof.
  rewrite fetchLatestEpisode_run. cbv zeta.
  destruct (summaryResponse gw (requests w) seriesId)
    as [|[[[[|s l]|]]|]]; simpl; try discriminate.
  pose proof (seasonWalk_result gw seriesId (s :: l)
                (record_request (SummaryReq seriesId) w).2 ep) as Hwalk.
  simpl in Hwalk.
  destruct (seasonWalk gw seriesId (s :: l) _) as [[r|e] w2]; simpl in *;
    [|discriminate].
  intros [= ->]. destruct (Hwalk eq_refl) as (season & eps & h & Hreq & Hresp & Hlast).
  split; [|eauto].
  apply last_Some in Hlast as [front Hfront].
  assert (Hin : ep ∈ filter (fun ep => validEpisode ep = true) eps).
  { rewrite Hfront. apply elem_of_app. right. apply list_elem_of_here. }
  apply list_elem_of_filter in Hin as [Hvalid _]. exact Hvalid.
Qed.

Lemma fetchLatestEpisode_only_valid_witness :
  (fetchLatestEpisode scenarioGateway "S" freshWorld).1 = Returned (Some finale) /\
  validEpisode finale = true.
Proof.
  assert (H : (fetchLatestEpisode scenarioGateway "S" freshWorld).1
              = Returned (Some finale)) by reflexivity.
  split; [exact H|].
  exact (proj1 (fetchLatestEpisode_only_valid scenarioGateway "S" freshWorld
                  finale H)).
Defined.

(** X2.  When the summary gives no season to walk (a fault, no data, no
    list, an empty list), the resolver returns [null] after that one request:
    no episode list is asked for. *)
Theorem fetchLatestEpisode_no_seasons gw seriesId w :
  listedSeasons (summaryResponse gw (requests w) seriesId) = [] ->
  (fetchLatestEpisode gw seriesId w).1 = Returned None /\
  requests (fetchLatestEpisode gw seriesId w).2
    = requests w ++ [SummaryReq seriesId].
Proof.
  rewrite fetchLatestEpisode_run. cbv zeta.
  destruct (summaryResponse gw (requests w) seriesId)
    as [|[[[[|s l]|]]|]]; simpl; try discriminate; auto.
Qed.

Lemma fetchLatestEpisode_no_seasons_witness :
  (fetchLatestEpisode downGateway "S" freshWorld).1 = Returned None /\
  requests (fetchLatestEpisode downGateway "S" freshWorld).2
    = requests freshWorld ++ [SummaryReq "S"].
Proof.
  exact (fetchLatestEpisode_no_seasons downGateway "S" freshWorld eq_refl).
Defined.

(** X3.  The resolver only reads from the provider: the two collections,
    the watermark and the chat trace are after the call what they were
    before, whatever was answered. *)
Theorem fetchLatestEpisode_reads_only gw seriesId w :
  sameState w (fetchLatestEpisode gw seriesId w).2.
Proof.
  destruct (fetchLatestEpisode_trace gw seriesId w)
    as (_ & _ & _ & _ & Hsame & _).
  exact Hsame.
Qed.

(** ** The scheduler's check, over several ticks and series *)

Lemma readEntry_own obj key :
  key <> protoKey -> readEntry obj key = obj !! key.
Proof.
  intros Hkey. unfold readEntry.
  destruct (decide (key = protoKey)); [contradiction | reflexivity].
Qed.

Lemma assignEntry_own key v obj :
  key <> protoKey -> assignEntry key v obj = <[key := v]> obj.
Proof.
  intros Hkey. unfold assignEntry.
  destruct (decide (key = protoKey)); [contradiction | reflexivity].
Qed.

Section CheckMore.

Context (gw : Gateway) (transport : Transport) (CHAT_ID : Z).

(** The outcomes of one check, by what the resolver returns. *)
Lemma checkForNewEpisode_cases seriesId w :
  exists r,
    (fetchLatestEpisode gw seriesId w).1 = Returned r /\
    let run := checkForNewEpisode gw transport CHAT_ID seriesId w in
    match r with
    | Some ep =>
        let photo :=
          SendPhoto CHAT_ID ep (tally (NumKey (id ep)) (reactionsCollection w)) in
        if decide (readEntry (lastNotifiedEpisodes w) seriesId = Some (id ep)) then
          run.1 = Returned tt /\ outbox run.2 = outbox w /\
          lastNotifiedEpisodes run.2 = lastNotifiedEpisodes w
        else if transport (outbox w) photo then
          run.1 = Returned tt /\ outbox run.2 = outbox w ++ [photo] /\
          lastNotifiedEpisodes run.2
            = assignEntry seriesId (id ep) (lastNotifiedEpisodes w)
        else
          run.1 = Thrown (TransportError photo) /\
          outbox run.2 = outbox w ++ [photo] /\
          lastNotifiedEpisodes run.2 = lastNotifiedEpisodes w
    | None =>
        run.1 = Returned tt /\ outbox run.2 = outbox w /\
        lastNotifiedEpisodes run.2 = lastNotifiedEpisodes w
    end.
Proof.
  unfold checkForNewEpisode, mbind, M_bind.
  destruct (fetchLatestEpisode_trace gw seriesId w)
    as (_ & _ & _ & _ & Hsame & [r Hret] & _).
  destruct (fetchLatestEpisode gw seriesId w) as [o w1]. simpl in *. subst o.
  destruct Hsame as (_ & Hreactions & Hmark & Hout).
  exists r. split; [reflexivity|].
  destruct r as [ep|]; simpl; [|auto].
  rewrite Hmark.
  destruct (decide (readEntry (lastNotifiedEpisodes w) seriesId = Some (id ep)))
    as [Heq|Hne].
  - destruct (decide (Some (id ep) ≠ readEntry (lastNotifiedEpisodes w) seriesId))
      as [Hnew|_]; [exfalso; congruence|].
    simpl. auto.
  - destruct (decide (Some (id ep) ≠ readEntry (lastNotifiedEpisodes w) seriesId))
      as [_|Hold]; [|exfalso; apply Hold; congruence].
    unfold getReactions, gets, await_call, record_call, set_lastNotified,
      modify, mbind, M_bind. simpl.
    rewrite Hreactions, Hout.
    destruct (transport _ _); simpl; rewrite Hmark; auto.
Qed.

(** A check that returns has the watermark of its series at the id of the
    episode it resolved, for a series id that is a slot of the object. *)
Lemma checkForNewEpisode_marks seriesId w ep :
  seriesId <> protoKey ->
  (fetchLatestEpisode gw seriesId w).1 = Returned (Some ep) ->
  (checkForNewEpisode gw transport CHAT_ID seriesId w).1 = Returned tt ->
  lastNotifiedEpisodes (checkForNewEpisode gw transport CHAT_ID seriesId w).2
    !! seriesId = Some (id ep).
Proof.
  intros Hkey Hres Hret.
  destruct (checkForNewEpisode_cases seriesId w) as (r & Hr & Hcases).
  rewrite Hres in Hr. injection Hr as <-. simpl in Hcases.
  rewrite (readEntry_own _ _ Hkey), (assignEntry_own _ _ _ Hkey) in Hcases.
  destruct (decide (lastNotifiedEpisodes w !! seriesId = Some (id ep)))
    as [Heq|_].
  - destruct Hcases as (_ & _ & ->). exact Heq.
  - destruct (transport _ _).
    + destruct Hcases as (_ & _ & ->). apply lookup_insert_eq.
    + destruct Hcases as (Hthrown & _). congruence.
Qed.

End CheckMore.

(** X4.  For a series id other than [__proto__]: once a check has returned,
    a later check of the same series for which the resolver gives the same
    result sends nothing and leaves the watermark alone, so an episode is
    announced once as long as it stays the latest. *)
Theorem checkForNewEpisode_no_repeat gw transport transport' CHAT_ID seriesId w :
  seriesId <> protoKey ->
  let run1 := checkForNewEpisode gw transport CHAT_ID seriesId w in
  run1.1 = Returned tt ->
  (fetchLatestEpisode gw seriesId run1.2).1 = (fetchLatestEpisode gw seriesId w).1 ->
  let run2 := checkForNewEpisode gw transport' CHAT_ID seriesId run1.2 in
  run2.1 = Returned tt /\
  outbox run2.2 = outbox run1.2 /\
  lastNotifiedEpisodes run2.2 = lastNotifiedEpisodes run1.2.
Proof.
  intros Hkey run1 Hret Hsame run2. subst run1 run2.
  destruct (checkForNewEpisode_cases gw transport' CHAT_ID seriesId
              (checkForNewEpisode gw transport CHAT_ID seriesId w).2)
    as (r & Hr & Hcases).
  destruct r as [ep|]; [|exact Hcases].
  rewrite Hsame in Hr.
  pose proof (checkForNewEpisode_marks gw transport CHAT_ID seriesId w ep
                Hkey Hr Hret) as Hmark.
  cbv zeta in Hcases. rewrite (readEntry_own _ _ Hkey) in Hcases.
  destruct (decide (_ = Some (id ep))) as [_|Hne]; [exact Hcases | contradiction].
Qed.

Lemma checkForNewEpisode_no_repeat_witness :
  let run1 := checkForNewEpisode scenarioGateway delivering 1 "S" freshWorld in
  let run2 := checkForNewEpisode scenarioGateway refusing 1 "S" run1.2 in
  "S" <> protoKey /\
  run1.1 = Returned tt /\
  run2.1 = Returned tt /\
  outbox run2.2 = outbox run1.2 /\
  lastNotifiedEpisodes run2.2 = lastNotifiedEpisodes run1.2.
Proof.
  assert (Hkey : "S" <> protoKey) by discriminate.
  split; [exact Hkey|]. split; [reflexivity|].
  exact (checkForNewEpisode_no_repeat scenarioGateway delivering refusing 1 "S"
           freshWorld Hkey eq_refl eq_refl).
Defined.

(** X5.  For a series id other than [__proto__]: a check that returns after
    the resolver gave an episode leaves the watermark of its series at the
    id of that episode, whether it had to send or not. *)
Theorem checkForNewEpisode_watermark_is_latest gw transport CHAT_ID seriesId w ep :
  seriesId <> protoKey ->
  (fetchLatestEpisode gw seriesId w).1 = Returned (Some ep) ->
  (checkForNewEpisode gw transport CHAT_ID seriesId w).1 = Returned tt ->
  lastNotifiedEpisodes (checkForNewEpisode gw transport CHAT_ID seriesId w).2
    !! seriesId = Some (id ep).
Proof. apply checkForNewEpisode_marks. Qed.

Lemma checkForNewEpisode_watermark_is_latest_witness :
  "S" <> protoKey /\
  lastNotifiedEpisodes
    (checkForNewEpisode scenarioGateway delivering 1 "S" freshWorld).2 !! "S"
  = Some (id finale).
Proof.
  assert (Hkey : "S" <> protoKey) by discriminate.
  split; [exact Hkey|].
  exact (checkForNewEpisode_watermark_is_latest scenarioGateway delivering 1 "S"
           freshWorld finale Hkey eq_refl eq_refl).
Defined.

(** X6.  A check writes no watermark but that of its own series: the entry
    of every other series is after the check what it was before. *)
Theorem checkForNewEpisode_other_series gw transport CHAT_ID seriesId other w :
  other <> seriesId ->
  lastNotifiedEpisodes (checkForNewEpisode gw transport CHAT_ID seriesId w).2
    !! other = lastNotifiedEpisodes w !! other.
Proof.
  intros Hother.
  destruct (checkForNewEpisode_cases gw transport CHAT_ID seriesId w)
    as (r & _ & Hcases).
  destruct r as [ep|]; cbv zeta in Hcases.
  - destruct (decide (_ = Some (id ep))); [destruct Hcases as (_ & _ & ->); reflexivity|].
    destruct (transport _ _); destruct Hcases as (_ & _ & ->); [|reflexivity].
    unfold assignEntry. destruct (decide (seriesId = protoKey)); [reflexivity|].
    apply lookup_insert_ne. congruence.
  - destruct Hcases as (_ & _ & ->). reflexivity.
Qed.

Lemma checkForNewEpisode_other_series_witness :
  lastNotifiedEpisodes
    (checkForNewEpisode scenarioGateway delivering 1 "S" freshWorld).2 !! "T"
  = lastNotifiedEpisodes freshWorld !! "T".
Proof.
  apply (checkForNewEpisode_other_series scenarioGateway delivering 1 "S" "T"
           freshWorld).
  discriminate.
Defined.

(** X7.  The manual command sends exactly one thing and never touches the
    watermark or the collections: the photo of the episode when the resolver
    gives one, the error text otherwise.  The series id it asks for is the
    second piece of the message, or the word [undefined] without one. *)
Theorem latest_episode_answers gw transport text chatId w :
  let resolved :=
    (fetchLatestEpisode gw (templateText (split " "%char text !! 1%nat)) w).1 in
  let run := latest_episode gw transport text chatId w in
  lastNotifiedEpisodes run.2 = lastNotifiedEpisodes w /\
  seriesCollection run.2 = seriesCollection w /\
  reactionsCollection run.2 = reactionsCollection w /\
  match resolved with
  | Returned (Some ep) =>
      outbox run.2
        = outbox w ++
          [SendPhoto chatId ep (tally (NumKey (id ep)) (reactionsCollection w))]
  | _ => run.1 = Returned tt /\ outbox run.2 = outbox w ++ [Reply latestErrorText]
  end.
Proof.
  intros resolved run. subst resolved run.
  unfold latest_episode, mbind, M_bind.
  destruct (fetchLatestEpisode_trace gw
              (templateText (split " "%char text !! 1%nat)) w)
    as (_ & _ & _ & _ & Hsame & [r Hret] & _).
  destruct (fetchLatestEpisode gw _ w) as [o w1]. simpl in *. subst o.
  destruct Hsame as (Hseries & Hreactions & Hmark & Hout).
  destruct r as [ep|]; simpl.
  - unfold getReactions, gets, await_call, record_call, modify, mbind, M_bind.
    simpl. rewrite Hreactions, Hout.
    destruct (transport _ _); simpl; auto.
  - rewrite Hout. auto.
Qed.

(** X24.  For a series id other than [__proto__], the check sends a
    notification exactly when the resolver returns an episode whose id is
    not the watermark entry of the series, a missing entry included.  The
    entry is set to that id when the send goes through; when the send is
    refused the check rejects and the watermark is as before.  When the ids
    agree, or nothing is resolved, nothing is sent and the watermark is as
    before. *)
Theorem checkForNewEpisode_dispatch_own_key gw transport CHAT_ID seriesId w :
  seriesId <> protoKey ->
  let resolved := (fetchLatestEpisode gw seriesId w).1 in
  let run := checkForNewEpisode gw transport CHAT_ID seriesId w in
  match resolved with
  | Returned (Some ep) =>
      if decide (lastNotifiedEpisodes w !! seriesId = Some (id ep)) then
        run.1 = Returned tt /\
        outbox run.2 = outbox w /\
        lastNotifiedEpisodes run.2 = lastNotifiedEpisodes w
      else
        let photo :=
          SendPhoto CHAT_ID ep (tally (NumKey (id ep)) (reactionsCollection w)) in
        outbox run.2 = outbox w ++ [photo] /\
        if transport (outbox w) photo then
          run.1 = Returned tt /\
          lastNotifiedEpisodes run.2
            = <[seriesId := id ep]> (lastNotifiedEpisodes w)
        else
          run.1 = Thrown (TransportError photo) /\
          lastNotifiedEpisodes run.2 = lastNotifiedEpisodes w
  | _ =>
      run.1 = Returned tt /\
      outbox run.2 = outbox w /\
      lastNotifiedEpisodes run.2 = lastNotifiedEpisodes w
  end.
Proof.
  intros Hkey resolved run. subst resolved run.
  destruct (checkForNewEpisode_cases gw transport CHAT_ID seriesId w)
    as (r & -> & Hcases).
  destruct r as [ep|]; [|exact Hcases]. cbv zeta in Hcases.
  rewrite (readEntry_own _ _ Hkey), (assignEntry_own _ _ _ Hkey) in Hcases.
  destruct (decide (lastNotifiedEpisodes w !! seriesId = Some (id ep)));
    [exact Hcases|].
  cbv zeta. destruct (transport _ _); destruct Hcases as (? & ? & ?); auto.
Qed.

(** The first tick on the scenario: nothing notified yet for [S], the photo
    of the finale goes out and the watermark of [S] is its id. *)
Lemma checkForNewEpisode_dispatch_own_key_witness :
  let run := checkForNewEpisode scenarioGateway delivering 1 "S" freshWorld in
  "S" <> protoKey /\
  outbox run.2 = outbox freshWorld ++ [SendPhoto 1 finale (mkCounts 0 0 0)] /\
  run.1 = Returned tt /\
  lastNotifiedEpisodes run.2
    = <["S" := id finale]> (lastNotifiedEpisodes freshWorld).
Proof.
  assert (Hkey : "S" <> protoKey) by discriminate.
  split; [exact Hkey|].
  exact (checkForNewEpisode_dispatch_own_key scenarioGateway delivering 1 "S"
           freshWorld Hkey).
Defined.

(** X25.  For the series id [__proto__] the watermark never keeps anything:
    whatever the object holds and whatever the provider and the transport
    do, a check leaves the watermark as it was, and it sends the photo every
    time the resolver gives an episode. *)
Theorem checkForNewEpisode_proto_never_marks gw transport CHAT_ID w :
  let resolved := (fetchLatestEpisode gw protoKey w).1 in
  let run := checkForNewEpisode gw transport CHAT_ID protoKey w in
  lastNotifiedEpisodes run.2 = lastNotifiedEpisodes w /\
  match resolved with
  | Returned (Some ep) =>
      outbox run.2
        = outbox w ++
          [SendPhoto CHAT_ID ep (tally (NumKey (id ep)) (reactionsCollection w))]
  | _ => outbox run.2 = outbox w
  end.
Proof.
  intros resolved run. subst resolved run.
  destruct (checkForNewEpisode_cases gw transport CHAT_ID protoKey w)
    as (r & -> & Hcases).
  destruct r as [ep|]; cbv zeta in Hcases.
  - unfold readEntry, assignEntry in Hcases.
    destruct (decide (protoKey = protoKey)); [|contradiction].
    destruct (decide (None = Some (id ep))); [discriminate|].
    destruct (transport _ _); destruct Hcases as (_ & -> & ->); auto.
  - destruct Hcases as (_ & -> & ->). auto.
Qed.

(** ** The tally and the taps *)

Lemma countOf_total docs :
  countOf Like docs + countOf Love docs + countOf Angry docs = length docs.
Proof.
  induction docs as [|d docs IH]; [reflexivity|].
  rewrite !countOf_cons. simpl. destruct (reaction d); simpl; lia.
Qed.

Lemma matchStage_app e coll1 coll2 :
  matchStage e (coll1 ++ coll2) = matchStage e coll1 ++ matchStage e coll2.
Proof. unfold matchStage. apply filter_app. Qed.

(** Rewriting a record of one episode leaves the records matched for
    another as they are. *)
Lemma matchStage_updateOne_other e u r k coll :
  k <> e -> matchStage k (updateOne e u r coll) = matchStage k coll.
Proof.
  intros Hk. induction coll as [|d coll IH]; simpl; [reflexivity|].
  destruct (sameUserEpisode e u d) eqn:E.
  - apply sameUserEpisode_spec in E as [He _].
    rewrite !matchStage_cons. simpl.
    destruct (decide (episodeId d = k)); [congruence | reflexivity].
  - rewrite !matchStage_cons, IH. reflexivity.
Qed.

Lemma matchStage_none e coll :
  Forall (fun d => episodeId d <> e) coll -> matchStage e coll = [].
Proof.
  induction 1 as [|d coll Hd _ IH]; [reflexivity|].
  rewrite matchStage_cons, IH.
  destruct (decide (episodeId d = e)); [contradiction | reflexivity].
Qed.

Lemma handlerWritten_updateOne e u r coll :
  handlerWritten coll -> handlerWritten (updateOne e u r coll).
Proof.
  unfold handlerWritten. induction 1 as [|d coll Hd Hcoll IH]; simpl;
    [constructor|].
  destruct (sameUserEpisode e u d); constructor; auto.
Qed.

Lemma handlerWritten_tapAll transport taps : forall w,
  handlerWritten (reactionsCollection w) ->
  handlerWritten (reactionsCollection (tapAll transport taps w)).
Proof.
  induction taps as [|t taps IH]; intros w Hw; simpl; [exact Hw|].
  apply IH. rewrite reaction_action_store.
  destruct (List.find _ _) as [existing|].
  - destruct (decide (reaction existing = tapReaction t)); [exact Hw|].
    apply handlerWritten_updateOne, Hw.
  - unfold insertOne, handlerWritten. apply Forall_app. split; [exact Hw|].
    constructor; [exact I | constructor].
Qed.

(** X8.  [getReactions] changes nothing and always returns.  Each of its
    three counts is the number of records of the episode with that reaction,
    so together they add up to the number of records of the episode. *)
Theorem getReactions_counts_records e w :
  exists counts,
    getReactions e w = (Returned counts, w) /\
    like counts = countOf Like (matchStage e (reactionsCollection w)) /\
    love counts = countOf Love (matchStage e (reactionsCollection w)) /\
    angry counts = countOf Angry (matchStage e (reactionsCollection w)) /\
    like counts + love counts + angry counts
      = length (matchStage e (reactionsCollection w)).
Proof.
  exists (tally e (reactionsCollection w)).
  pose proof (tally_counts e (reactionsCollection w)) as Hcount.
  pose proof (Hcount Like) as HL. pose proof (Hcount Love) as HV.
  pose proof (Hcount Angry) as HA. simpl in HL, HV, HA.
  repeat split; try assumption.
  rewrite HL, HV, HA. apply countOf_total.
Qed.

(** X9.  A reaction tap on one episode leaves the tally of every other
    episode as it was. *)
Theorem reaction_action_other_episode transport r e u other w :
  other <> StrKey e ->
  tally other (reactionsCollection (reaction_action transport r e u w).2)
    = tally other (reactionsCollection w).
Proof.
  intros Hother. rewrite reaction_action_store. unfold tally.
  destruct (List.find _ _) as [existing|].
  - destruct (decide (reaction existing = r)); [reflexivity|].
    rewrite matchStage_updateOne_other by exact Hother. reflexivity.
  - unfold insertOne. rewrite matchStage_app, matchStage_cons. simpl.
    destruct (decide (StrKey e = other)); [congruence|].
    unfold matchStage at 2. rewrite filter_nil, app_nil_r. reflexivity.
Qed.

Lemma reaction_action_other_episode_witness :
  tally (StrKey "E1")
    (reactionsCollection (reaction_action delivering Love "E2" 7 likedWorld).2)
  = tally (StrKey "E1") (reactionsCollection likedWorld).
Proof.
  apply (reaction_action_other_episode delivering Love "E2" 7 (StrKey "E1")
           likedWorld).
  discriminate.
Defined.

(** X10.  The handler files every reaction under the string of the callback
    data, and a notification asks for the counts of the provider's number.
    So as long as the collection holds only records written by the handler,
    whatever was tapped, a notification goes out with all three buttons at
    zero. *)
Theorem sendLatestEpisodeNotification_counts_zero transport taps ep chatId w :
  handlerWritten (reactionsCollection w) ->
  let w' := tapAll transport taps w in
  outbox (sendLatestEpisodeNotification transport (Some ep) chatId w').2
    = outbox w' ++ [SendPhoto chatId ep (mkCounts 0 0 0)].
Proof.
  intros Hw w'.
  assert (Hzero : tally (NumKey (id ep)) (reactionsCollection w') = mkCounts 0 0 0).
  { unfold tally. rewrite matchStage_none; [reflexivity|].
    pose proof (handlerWritten_tapAll transport taps w Hw) as Hall.
    fold w' in Hall. unfold handlerWritten in Hall.
    eapply Forall_impl; [exact Hall|].
    intros d Hd Heq. simpl in Hd. rewrite Heq in Hd. exact Hd. }
  unfold sendLatestEpisodeNotification, getReactions, gets, await_call,
    record_call, modify, mbind, M_bind. simpl.
  rewrite Hzero. destruct (transport _ _); reflexivity.
Qed.

(** Two users react to the episode shown with id 102; the next notification
    of that episode still shows three zeros. *)
Lemma sendLatestEpisodeNotification_counts_zero_witness :
  let w' := tapAll delivering [mkTap Like "102" 7; mkTap Love "102" 8] freshWorld in
  handlerWritten (reactionsCollection freshWorld) /\
  length (reactionsCollection w') = 2 /\
  outbox (sendLatestEpisodeNotification delivering (Some finale) 1 w').2
    = outbox w' ++ [SendPhoto 1 finale (mkCounts 0 0 0)].
Proof.
  assert (H : handlerWritten (reactionsCollection freshWorld)) by constructor.
  split; [exact H|]. split; [reflexivity|].
  exact (sendLatestEpisodeNotification_counts_zero delivering
           [mkTap Like "102" 7; mkTap Love "102" 8] finale 1 freshWorld H).
Defined.

Lemma countOf_app r docs1 docs2 :
  countOf r (docs1 ++ docs2) = countOf r docs1 + countOf r docs2.
Proof. unfold countOf. rewrite filter_app, length_app. reflexivity. Qed.

(** X11.  A tap with a reaction other than the one on file for the user and
    the episode moves one unit in the episode's tally from the old reaction
    to the new one; the third count and the size of the collection stay. *)
Theorem reaction_action_overwrite transport r e u w existing :
  List.find (sameUserEpisode (StrKey e) u) (reactionsCollection w)
    = Some existing ->
  reaction existing <> r ->
  let w' := (reaction_action transport r e u w).2 in
  let before := tally (StrKey e) (reactionsCollection w) in
  let after := tally (StrKey e) (reactionsCollection w') in
  S (countFor after (reaction existing)) = countFor before (reaction existing) /\
  countFor after r = S (countFor before r) /\
  (forall r', r' <> r -> r' <> reaction existing ->
              countFor after r' = countFor before r') /\
  length (reactionsCollection w') = length (reactionsCollection w).
Proof.
  intros Hfind Hdiff w' before after. subst w' before after.
  rewrite reaction_action_store, Hfind.
  destruct (decide (reaction existing = r)) as [?|_]; [contradiction|].
  pose proof (updateOne_counts (StrKey e) u r _ _ Hfind) as Hcount.
  rewrite length_updateOne. repeat split.
  - specialize (Hcount (reaction existing)). rewrite !tally_counts.
    destruct (decide (reaction existing = reaction existing)); [|contradiction].
    destruct (decide (r = reaction existing)); [congruence | lia].
  - specialize (Hcount r). rewrite !tally_counts.
    destruct (decide (reaction existing = r)); [contradiction|].
    destruct (decide (r = r)); [lia | contradiction].
  - intros r' Hr Hold. specialize (Hcount r'). rewrite !tally_counts.
    destruct (decide (reaction existing = r')); [congruence|].
    destruct (decide (r = r')); [congruence | lia].
Qed.

(** User 7 has liked [E1] and turns angry while the transport refuses every
    call: the like is gone, the angry count is one. *)
Lemma reaction_action_overwrite_witness :
  let w' := (reaction_action refusing Angry "E1" 7 likedWorld).2 in
  let before := tally (StrKey "E1") (reactionsCollection likedWorld) in
  let after := tally (StrKey "E1") (reactionsCollection w') in
  S (countFor after Like) = countFor before Like /\
  countFor after Angry = S (countFor before Angry).
Proof.
  destruct (reaction_action_overwrite refusing Angry "E1" 7 likedWorld
              (mkReaction (StrKey "E1") 7 Like) eq_refl)
    as (Hold & Hnew & _); [discriminate|].
  split; [exact Hold | exact Hnew].
Defined.

(** X12.  The first tap of a user on an episode adds one record and one unit
    to the count of the tapped reaction; the other two counts stay. *)
Theorem reaction_action_first_tap transport r e u w :
  List.find (sameUserEpisode (StrKey e) u) (reactionsCollection w) = None ->
  let w' := (reaction_action transport r e u w).2 in
  let before := tally (StrKey e) (reactionsCollection w) in
  let after := tally (StrKey e) (reactionsCollection w') in
  countFor after r = S (countFor before r) /\
  (forall r', r' <> r -> countFor after r' = countFor before r') /\
  length (reactionsCollection w') = S (length (reactionsCollection w)).
Proof.
  intros Hfind w' before after. subst w' before after.
  rewrite reaction_action_store, Hfind. unfold insertOne.
  assert (Hcount : forall r',
    countFor (tally (StrKey e)
                (reactionsCollection w ++ [mkReaction (StrKey e) u r])) r'
    = countFor (tally (StrKey e) (reactionsCollection w)) r'
      + (if decide (r = r') then 1 else 0)).
  { intros r'. rewrite !tally_counts, matchStage_app, countOf_app.
    rewrite matchStage_cons. simpl.
    destruct (decide (StrKey e = StrKey e)); [|contradiction].
    rewrite countOf_cons. simpl. unfold matchStage, countOf at 2.
    rewrite !filter_nil. simpl. lia. }
  split; [rewrite Hcount; destruct (decide (r = r)); [lia | contradiction]|].
  split.
  - intros r' Hr. rewrite Hcount.
    destruct (decide (r = r')); [congruence | lia].
  - rewrite length_app. simpl. lia.
Qed.

Lemma reaction_action_first_tap_witness :
  let w' := (reaction_action delivering Love "E1" 8 likedWorld).2 in
  love (tally (StrKey "E1") (reactionsCollection w')) = 1 /\
  like (tally (StrKey "E1") (reactionsCollection w')) = 1 /\
  length (reactionsCollection w') = 2.
Proof.
  destruct (reaction_action_first_tap delivering Love "E1" 8 likedWorld eq_refl)
    as (Hnew & Hrest & Hlen).
  split; [exact Hnew|]. split; [|exact Hlen].
  apply (Hrest Like). discriminate.
Defined.

(** X13.  The reaction handler never rejects, and what it leaves in the
    reactions collection does not depend on the transport: a refused refresh
    of the buttons costs nothing of the tally.  The tracked series and the
    watermark are not touched. *)
Theorem reaction_action_store_survives transport transport' r e u w :
  (reaction_action transport r e u w).1 = Returned tt /\
  reactionsCollection (reaction_action transport r e u w).2
    = reactionsCollection (reaction_action transport' r e u w).2 /\
  seriesCollection (reaction_action transport r e u w).2 = seriesCollection w /\
  lastNotifiedEpisodes (reaction_action transport r e u w).2
    = lastNotifiedEpisodes w.
Proof.
  rewrite !reaction_action_store.
  rewrite reaction_action_run.
  destruct (List.find _ _) as [existing|];
    [destruct (decide (reaction existing = r)); [auto|]|];
    rewrite refreshButtons_run; simpl; auto.
Qed.

(** X14.  After a tap that files or rewrites a record, the buttons sent with
    the refresh carry the tally of the collection as the tap left it. *)
Theorem reaction_action_buttons_current transport r e u w :
  (forall existing,
      List.find (sameUserEpisode (StrKey e) u) (reactionsCollection w)
        = Some existing -> reaction existing <> r) ->
  let w' := (reaction_action transport r e u w).2 in
  outbox w'
    = outbox w ++
      [EditMessageReplyMarkup e (tally (StrKey e) (reactionsCollection w'));
       AnswerCbQuery r].
Proof.
  intros Hnew w'. subst w'. rewrite reaction_action_run.
  destruct (List.find _ _) as [existing|].
  - destruct (decide (reaction existing = r)) as [Hsame|_];
      [exfalso; exact (Hnew existing eq_refl Hsame)|].
    rewrite refreshButtons_run. reflexivity.
  - rewrite refreshButtons_run. reflexivity.
Qed.

Lemma reaction_action_buttons_current_witness :
  outbox (reaction_action delivering Love "E1" 7 likedWorld).2
    = [EditMessageReplyMarkup "E1" (mkCounts 0 1 0); AnswerCbQuery Love].
Proof.
  apply (reaction_action_buttons_current delivering Love "E1" 7 likedWorld).
  intros existing [= <-]. discriminate.
Defined.

Lemma sameUserEpisode_keys e u d d' :
  episodeId d' = episodeId d -> userId d' = userId d ->
  sameUserEpisode e u d' = sameUserEpisode e u d.
Proof. unfold sameUserEpisode. intros -> ->. reflexivity. Qed.

Lemma find_updateOne_other e u r e' u' coll :
  (e', u') <> (e, u) ->
  List.find (sameUserEpisode e' u') (updateOne e u r coll)
    = List.find (sameUserEpisode e' u') coll.
Proof.
  intros Hother. induction coll as [|d coll IH]; simpl; [reflexivity|].
  destruct (sameUserEpisode e u d) eqn:E; simpl.
  - rewrite (sameUserEpisode_keys e' u' d (mkReaction (episodeId d) (userId d) r))
      by reflexivity.
    destruct (sameUserEpisode e' u' d) eqn:E'; [|reflexivity].
    apply sameUserEpisode_spec in E as [<- <-].
    apply sameUserEpisode_spec in E' as [<- <-]. contradiction.
  - rewrite IH. reflexivity.
Qed.

Lemma find_insertOne_other e u r e' u' coll :
  (e', u') <> (e, u) ->
  List.find (sameUserEpisode e' u') (insertOne (mkReaction e u r) coll)
    = List.find (sameUserEpisode e' u') coll.
Proof.
  intros Hother. unfold insertOne.
  induction coll as [|d coll IH]; simpl.
  - destruct (sameUserEpisode e' u' (mkReaction e u r)) eqn:E; [|reflexivity].
    apply sameUserEpisode_spec in E as [<- <-]. contradiction.
  - rewrite IH. reflexivity.
Qed.

Section TapsMore.

Context (transport : Transport).

(** After a tap, the record on file for the pair carries the tapped
    reaction. *)
Lemma reaction_action_files r e u w :
  exists d,
    List.find (sameUserEpisode (StrKey e) u)
      (reactionsCollection (reaction_action transport r e u w).2) = Some d /\
    reaction d = r.
Proof.
  rewrite reaction_action_store.
  destruct (List.find _ (reactionsCollection w)) as [existing|] eqn:Hfind.
  - destruct (decide (reaction existing = r)); [eauto|].
    rewrite (find_updateOne _ _ r _ _ Hfind). eauto.
  - rewrite (find_insertOne _ _ r _ Hfind). eauto.
Qed.

(** A tap of another pair leaves the record on file for this pair. *)
Lemma reaction_action_other_pair r e u e' u' w :
  (e', u') <> (e, u) ->
  List.find (sameUserEpisode (StrKey e') u')
    (reactionsCollection (reaction_action transport r e u w).2)
  = List.find (sameUserEpisode (StrKey e') u') (reactionsCollection w).
Proof.
  intros Hother.
  assert (Hkeys : (StrKey e', u') <> (StrKey e, u)) by congruence.
  rewrite reaction_action_store.
  destruct (List.find (sameUserEpisode (StrKey e) u) _) as [existing|].
  - destruct (decide (reaction existing = r)); [reflexivity|].
    apply find_updateOne_other, Hkeys.
  - apply find_insertOne_other, Hkeys.
Qed.

End TapsMore.

(** X15.  In any series of taps the last tap of a user on an episode
    decides: when no later tap is by the same user on the same episode, the
    record on file for the pair at the end carries the reaction of that
    tap. *)
Theorem reaction_action_last_tap_wins transport taps before t rest w :
  taps = before ++ t :: rest ->
  Forall (fun t' => (tapEpisode t', tapUser t') <> (tapEpisode t, tapUser t)) rest ->
  exists d,
    List.find (sameUserEpisode (StrKey (tapEpisode t)) (tapUser t))
      (reactionsCollection (tapAll transport taps w)) = Some d /\
    reaction d = tapReaction t.
Proof.
  intros -> Hrest. rewrite tapAll_app. simpl.
  generalize (tapAll transport before w). intros w0.
  pose proof (reaction_action_files transport (tapReaction t) (tapEpisode t)
                (tapUser t) w0) as Hfiled.
  revert Hfiled.
  generalize (reaction_action transport (tapReaction t) (tapEpisode t)
                (tapUser t) w0).2.
  clear w0. induction Hrest as [|t' rest Ht' _ IH]; intros w1 Hfiled; simpl;
    [exact Hfiled|].
  apply IH.
  rewrite reaction_action_other_pair; [exact Hfiled|].
  intros Heq. apply Ht'. congruence.
Qed.

(** User 7 likes, user 8 loves, user 7 turns angry, user 8 taps love again:
    the record of user 7 says angry. *)
Lemma reaction_action_last_tap_wins_witness :
  exists d,
    List.find (sameUserEpisode (StrKey "E1") 7)
      (reactionsCollection
         (tapAll delivering
            [mkTap Like "E1" 7; mkTap Love "E1" 8; mkTap Angry "E1" 7;
             mkTap Love "E1" 8] freshWorld)) = Some d /\
    reaction d = Angry.
Proof.
  apply (reaction_action_last_tap_wins delivering _
           [mkTap Like "E1" 7; mkTap Love "E1" 8] (mkTap Angry "E1" 7)
           [mkTap Love "E1" 8] freshWorld eq_refl).
  repeat constructor. discriminate.
Defined.

(** ** Adding and removing series *)

Lemma split_spaceFree s : spaceFree s = true -> split " "%char s = [s].
Proof.
  induction s as [|c s IH]; simpl; [reflexivity|].
  intros H. apply andb_true_iff in H as [Hc Hs].
  apply negb_true_iff, bool_decide_eq_false in Hc.
  destruct (decide (c = " "%char)); [contradiction|].
  rewrite (IH Hs). reflexivity.
Qed.

Lemma split_app_space a b :
  spaceFree a = true ->
  split " "%char (a +:+ String " "%char b) = a :: split " "%char b.
Proof.
  induction a as [|c a IH]; simpl; [reflexivity|].
  intros H. apply andb_true_iff in H as [Hc Ha].
  apply negb_true_iff, bool_decide_eq_false in Hc.
  destruct (decide (c = " "%char)); [contradiction|].
  rewrite (IH Ha). reflexivity.
Qed.

Lemma append_empty_r (s : string) : s +:+ EmptyString = s.
Proof.
  induction s as [|c s IH]; [reflexivity|].
  change (String c (s +:+ EmptyString) = String c s). rewrite IH. reflexivity.
Qed.

(** The second piece of a message made of a command, one space, an id
    without space and, at most, more text after another space. *)
Lemma split_second cmd seriesId tail :
  spaceFree cmd = true -> spaceFree seriesId = true ->
  tail = EmptyString \/ (exists more, tail = String " "%char more) ->
  split " "%char (cmd +:+ " " +:+ seriesId +:+ tail) !! 1%nat = Some seriesId.
Proof.
  intros Hcmd Hid Htail.
  change (cmd +:+ " " +:+ seriesId +:+ tail)
    with (cmd +:+ String " "%char (seriesId +:+ tail)).
  rewrite (split_app_space _ _ Hcmd).
  destruct Htail as [->|[more ->]].
  - rewrite append_empty_r, (split_spaceFree _ Hid). reflexivity.
  - rewrite (split_app_space _ _ Hid). reflexivity.
Qed.

Lemma find_series_absent (seriesId : string) (coll : list string) :
  List.find (fun d => bool_decide (d = seriesId)) coll = None <-> seriesId ∉ coll.
Proof.
  induction coll as [|d coll IH]; simpl.
  - split; [intros _; apply not_elem_of_nil | reflexivity].
  - rewrite not_elem_of_cons. destruct (bool_decide (d = seriesId)) eqn:E.
    + apply bool_decide_eq_true in E.
      split; [discriminate | intros [H _]; congruence].
    + apply bool_decide_eq_false in E. rewrite IH.
      split; [intros H; split; [congruence | exact H] | tauto].
Qed.

(** What [add_series] leaves in the collection and says, by the second
    piece of the message. *)
Lemma add_series_run text w :
  add_series text w
    = (Returned tt,
       mkWorld
         (match split " "%char text !! 1%nat with
          | Some seriesId =>
              if truthy (Some seriesId)
              then if decide (seriesId ∈ seriesCollection w)
                   then seriesCollection w
                   else seriesCollection w ++ [seriesId]
              else seriesCollection w
          | None => seriesCollection w
          end)
         (reactionsCollection w) (lastNotifiedEpisodes w) (requests w)
         (outbox w ++
          [Reply
             (match split " "%char text !! 1%nat with
              | Some seriesId =>
                  if truthy (Some seriesId)
                  then if decide (seriesId ∈ seriesCollection w)
                       then rejectedText
                       else addedText seriesId
                  else rejectedText
              | None => rejectedText
              end)])
         (console w)).
Proof.
  unfold add_series.
  destruct (split " "%char text !! 1%nat) as [seriesId|]; [|reflexivity].
  destruct (truthy (Some seriesId)); [|reflexivity].
  unfold findOneSeries, gets, mbind, M_bind.
  destruct (decide (seriesId ∈ seriesCollection w)) as [Hin|Hout].
  - rewrite (find_series_member _ _ Hin). reflexivity.
  - rewrite (proj2 (find_series_absent _ _) Hout). reflexivity.
Qed.

(** X16.  A message made of the command, one space and an id that is not
    empty, has no space and is not tracked yet appends that id to the
    collection and is answered with the confirmation for it; text after a
    further space is ignored. *)
Theorem add_series_fresh cmd seriesId tail w :
  spaceFree cmd = true ->
  spaceFree seriesId = true ->
  seriesId <> EmptyString ->
  tail = EmptyString \/ (exists more, tail = String " "%char more) ->
  seriesId ∉ seriesCollection w ->
  let run := add_series (cmd +:+ " " +:+ seriesId +:+ tail) w in
  run.1 = Returned tt /\
  seriesCollection run.2 = seriesCollection w ++ [seriesId] /\
  outbox run.2 = outbox w ++ [Reply (addedText seriesId)].
Proof.
  intros Hcmd Hid Hne Htail Hfresh run. subst run.
  assert (Htruthy : truthy (Some seriesId) = true)
    by (destruct seriesId; [contradiction | reflexivity]).
  rewrite add_series_run, (split_second _ _ _ Hcmd Hid Htail), Htruthy.
  destruct (decide (seriesId ∈ seriesCollection w)); [contradiction|].
  simpl. auto.
Qed.

Lemma add_series_fresh_witness :
  let run := add_series "/add_series 80379 please" likedWorld in
  seriesCollection run.2 = ["121361"; "80379"] /\
  outbox run.2 = [Reply "Series with ID 80379 added."].
Proof.
  destruct (add_series_fresh "/add_series" "80379" " please" likedWorld)
    as (_ & Hstore & Hout); try reflexivity; try discriminate.
  - right. exists "please". reflexivity.
  - intros H. apply list_elem_of_singleton in H. discriminate.
  - split; [exact Hstore | exact Hout].
Defined.

(** X17.  [add_series] never files a series twice: a collection without
    duplicates has none after the command, whatever the message. *)
Theorem add_series_keeps_NoDup text w :
  NoDup (seriesCollection w) ->
  NoDup (seriesCollection (add_series text w).2).
Proof.
  intros Hnd. rewrite add_series_run. cbn [snd seriesCollection].
  destruct (split " "%char text !! 1%nat) as [seriesId|]; [|exact Hnd].
  destruct (truthy (Some seriesId)); [|exact Hnd].
  destruct (decide (seriesId ∈ seriesCollection w)) as [_|Hout]; [exact Hnd|].
  apply NoDup_app. split; [exact Hnd|]. split; [|apply NoDup_singleton].
  intros x Hx Hx'. apply list_elem_of_singleton in Hx'. congruence.
Qed.

Lemma add_series_keeps_NoDup_witness :
  NoDup (seriesCollection likedWorld) /\
  NoDup (seriesCollection (add_series "/add_series 121361" likedWorld).2).
Proof.
  assert (H : NoDup (seriesCollection likedWorld)) by apply NoDup_singleton.
  split; [exact H|].
  exact (add_series_keeps_NoDup "/add_series 121361" likedWorld H).
Defined.

(** X18.  Sending the same [add_series] message a second time changes
    nothing in the collection and is always answered with the rejection. *)
Theorem add_series_twice text w :
  let once := (add_series text w).2 in
  let twice := (add_series text once).2 in
  seriesCollection twice = seriesCollection once /\
  outbox twice = outbox once ++ [Reply rejectedText].
Proof.
  intros once twice. subst once twice.
  rewrite (add_series_run text w). cbn [snd seriesCollection outbox].
  rewrite add_series_run. cbn [snd seriesCollection outbox].
  destruct (split " "%char text !! 1%nat) as [seriesId|]; [|auto].
  destruct (truthy (Some seriesId)); [|auto].
  destruct (decide (seriesId ∈ seriesCollection w)) as [Hin|Hout].
  - destruct (decide (seriesId ∈ seriesCollection w)); [auto | contradiction].
  - destruct (decide (seriesId ∈ seriesCollection w ++ [seriesId]))
      as [_|Hout']; [auto|].
    exfalso. apply Hout', elem_of_app. right. apply list_elem_of_here.
Qed.

Lemma split_blank cmd rest :
  spaceFree cmd = true ->
  split " "%char (cmd +:+ " " +:+ " " +:+ rest) !! 1%nat = Some EmptyString.
Proof.
  intros Hcmd.
  change (cmd +:+ " " +:+ " " +:+ rest)
    with (cmd +:+ String " "%char (String " "%char rest)).
  rewrite (split_app_space _ _ Hcmd). reflexivity.
Qed.

(** X19.  Two spaces after the command leave an empty id: whatever follows,
    nothing is added and the answer is the rejection. *)
Theorem add_series_blank_id cmd rest w :
  spaceFree cmd = true ->
  let run := add_series (cmd +:+ " " +:+ " " +:+ rest) w in
  seriesCollection run.2 = seriesCollection w /\
  outbox run.2 = outbox w ++ [Reply rejectedText].
Proof.
  intros Hcmd run. subst run.
  rewrite add_series_run, (split_blank _ _ Hcmd). auto.
Qed.

Lemma add_series_blank_id_witness :
  let run := add_series "/add_series  80379" likedWorld in
  seriesCollection run.2 = seriesCollection likedWorld /\
  outbox run.2 = outbox likedWorld ++ [Reply rejectedText].
Proof.
  exact (add_series_blank_id "/add_series" "80379" likedWorld eq_refl).
Defined.

Lemma length_deleteOne (seriesId : string) (coll : list string) :
  seriesId ∈ coll -> S (length (deleteOne seriesId coll)) = length coll.
Proof.
  induction coll as [|d coll IH]; simpl; intros Hin; [inversion Hin|].
  destruct (decide (d = seriesId)) as [->|Hd]; [reflexivity|].
  apply elem_of_cons in Hin as [->|Hin]; [contradiction|].
  simpl. rewrite (IH Hin). reflexivity.
Qed.

Lemma elem_of_deleteOne_other (seriesId other : string) (coll : list string) :
  other <> seriesId -> other ∈ deleteOne seriesId coll <-> other ∈ coll.
Proof.
  intros Hother. induction coll as [|d coll IH]; simpl; [reflexivity|].
  destruct (decide (d = seriesId)) as [->|Hd].
  - rewrite elem_of_cons. split; [auto | intros [?|?]; [contradiction | assumption]].
  - rewrite !elem_of_cons, IH. reflexivity.
Qed.

Lemma deleteOne_NoDup_gone (seriesId : string) (coll : list string) :
  NoDup coll -> seriesId ∉ deleteOne seriesId coll.
Proof.
  induction 1 as [|d coll Hd Hnd IH]; simpl; [apply not_elem_of_nil|].
  destruct (decide (d = seriesId)) as [->|Hne]; [exact Hd|].
  apply not_elem_of_cons. split; [congruence | exact IH].
Qed.

Lemma deleteOne_snoc_fresh (seriesId : string) (coll : list string) :
  seriesId ∉ coll -> deleteOne seriesId (coll ++ [seriesId]) = coll.
Proof.
  induction coll as [|d coll IH]; simpl; intros Hout.
  - destruct (decide (seriesId = seriesId)); [reflexivity | contradiction].
  - apply not_elem_of_cons in Hout as [Hd Hout].
    destruct (decide (d = seriesId)); [congruence|].
    rewrite (IH Hout). reflexivity.
Qed.

Lemma remove_series_run transport seriesId w :
  remove_series transport seriesId w =
  let edit := EditMessageText (removedText seriesId) in
  (if transport (outbox w) edit then Returned tt
   else Thrown (TransportError edit),
   mkWorld (deleteOne seriesId (seriesCollection w)) (reactionsCollection w)
           (lastNotifiedEpisodes w) (requests w) (outbox w ++ [edit])
           (console w ++ [RemovingSeries seriesId])).
Proof.
  unfold remove_series, set_series, await_call, record_call, modify,
    mbind, M_bind. simpl.
  destruct (transport _ _); reflexivity.
Qed.

(** X20.  Removing a tracked series takes exactly one document out of the
    collection, the first filed under that id: every other id is tracked
    after the removal exactly when it was before, and in a collection
    without duplicates the id is gone.  The deletion is made before the
    confirmation is sent, so it stands also when the transport refuses the
    edit and the handler rejects. *)
Theorem remove_series_tracked transport seriesId w :
  seriesId ∈ seriesCollection w ->
  let run := remove_series transport seriesId w in
  S (length (seriesCollection run.2)) = length (seriesCollection w) /\
  (forall other, other <> seriesId ->
     other ∈ seriesCollection run.2 <-> other ∈ seriesCollection w) /\
  (NoDup (seriesCollection w) -> seriesId ∉ seriesCollection run.2) /\
  (transport (outbox w) (EditMessageText (removedText seriesId)) = false ->
     run.1 = Thrown (TransportError (EditMessageText (removedText seriesId)))).
Proof.
  intros Hin run. subst run. rewrite remove_series_run. simpl.
  split; [apply length_deleteOne, Hin|].
  split; [intros other Hother; apply elem_of_deleteOne_other, Hother|].
  split; [apply deleteOne_NoDup_gone|].
  intros ->. reflexivity.
Qed.

(** Series 121361 is removed while the transport refuses the edit: the
    handler rejects and the collection is empty. *)
Lemma remove_series_tracked_witness :
  let run := remove_series refusing "121361" likedWorld in
  "121361" ∈ seriesCollection likedWorld /\
  S (length (seriesCollection run.2)) = length (seriesCollection likedWorld) /\
  run.1 = Thrown (TransportError (EditMessageText (removedText "121361"))).
Proof.
  assert (Hin : "121361" ∈ seriesCollection likedWorld)
    by apply list_elem_of_here.
  destruct (remove_series_tracked refusing "121361" likedWorld Hin)
    as (Hlen & _ & _ & Hthrown).
  split; [exact Hin|]. split; [exact Hlen | exact (Hthrown eq_refl)].
Defined.

(** X21.  Adding an untracked series and then removing it gives back the
    collection as it was. *)
Theorem add_then_remove cmd seriesId transport w :
  spaceFree cmd = true ->
  spaceFree seriesId = true ->
  seriesId <> EmptyString ->
  seriesId ∉ seriesCollection w ->
  seriesCollection
    (remove_series transport seriesId
       (add_series (cmd +:+ " " +:+ seriesId) w).2).2
  = seriesCollection w.
Proof.
  intros Hcmd Hid Hne Hfresh.
  assert (Htruthy : truthy (Some seriesId) = true)
    by (destruct seriesId; [contradiction | reflexivity]).
  pose proof (split_second cmd seriesId EmptyString Hcmd Hid (or_introl eq_refl))
    as Hsplit.
  rewrite append_empty_r in Hsplit.
  rewrite remove_series_run, add_series_run, Hsplit, Htruthy.
  destruct (decide (seriesId ∈ seriesCollection w)); [contradiction|].
  cbn [snd seriesCollection]. apply deleteOne_snoc_fresh, Hfresh.
Qed.

Lemma add_then_remove_witness :
  seriesCollection
    (remove_series delivering "80379"
       (add_series "/add_series 80379" likedWorld).2).2
  = seriesCollection likedWorld.
Proof.
  apply (add_then_remove "/add_series" "80379" delivering likedWorld);
    try reflexivity; try discriminate.
  intros H. apply list_elem_of_singleton in H. discriminate.
Defined.

(** ** The series list *)

Section SeriesListProps.

Context (nameResponse : list string -> string -> Response SeriesInfo).

Lemma fetchSeriesName_run seriesId d :
  exists lines,
    fetchSeriesName nameResponse seriesId d
      = (Done (labelOf (nameResponse (nameRequests d) seriesId)),
         mkDesk (world d) (nameRequests d ++ [seriesId]) (listCalls d)
                (listConsole d ++ lines)).
Proof.
  unfold fetchSeriesName.
  destruct (nameResponse (nameRequests d) seriesId) as [|[info|]]; simpl.
  - exists [ErrorFetchingName]. reflexivity.
  - exists []. rewrite app_nil_r. reflexivity.
  - exists [NoSeriesFound seriesId]. reflexivity.
Qed.

(** The loop asks for one name per id, in order, and pushes one button per
    id after those it started with. *)
Lemma pushButtons_run ids : forall buttons d,
  exists added lines,
    pushButtons nameResponse ids buttons d
      = (Done (buttons ++ added),
         mkDesk (world d) (nameRequests d ++ ids) (listCalls d)
                (listConsole d ++ lines)) /\
    map callback_data added = map (fun seriesId => "series_" +:+ seriesId) ids /\
    forall i seriesId,
      ids !! i = Some seriesId ->
      buttonText <$> added !! i
        = Some (labelOf (nameResponse (nameRequests d ++ take i ids) seriesId)).
Proof.
  induction ids as [|seriesId ids IH]; intros buttons d; simpl.
  - exists [], []. rewrite !app_nil_r. destruct d.
    split; [reflexivity|]. split; [reflexivity|].
    intros i s Hi. destruct i; discriminate.
  - unfold mbind, D_bind.
    destruct (fetchSeriesName_run seriesId d) as (lines & ->).
    destruct (IH (buttons ++
                    [mkButton (labelOf (nameResponse (nameRequests d) seriesId))
                       ("series_" +:+ seriesId)])
                 (mkDesk (world d) (nameRequests d ++ [seriesId]) (listCalls d)
                    (listConsole d ++ lines)))
      as (added & lines' & -> & Hdata & Hlabels).
    simpl in *.
    exists (mkButton (labelOf (nameResponse (nameRequests d) seriesId))
              ("series_" +:+ seriesId) :: added), (lines ++ lines').
    rewrite <- !app_assoc. simpl.
    split; [reflexivity|]. split; [rewrite Hdata; reflexivity|].
    intros i s Hi. destruct i as [|i]; simpl in *.
    + injection Hi as <-. rewrite app_nil_r. reflexivity.
    + rewrite (Hlabels i s Hi), <- app_assoc. reflexivity.
Qed.

End SeriesListProps.

(** X22.  [list_series] asks the provider for one name per tracked series,
    in the order of the collection, and answers with one button per series
    in that order, each carrying [series_] and the id and labelled with the
    provider's name, or with the placeholder when the lookup failed or gave
    no data.  No provider answer makes the listing fail: it rejects only
    when the transport refuses the reply.  With nothing tracked it asks
    nothing and says so. *)
Theorem list_series_lists nameResponse listTransport d :
  let run := list_series nameResponse listTransport d in
  let ids := seriesCollection (world d) in
  world run.2 = world d /\
  nameRequests run.2 = nameRequests d ++ ids /\
  match ids with
  | [] => run.1 = Done tt /\ listCalls run.2 = listCalls d ++ [ReplyText noSeriesText]
  | _ :: _ =>
      exists buttons,
        listCalls run.2 = listCalls d ++ [ReplyButtons seriesListText buttons] /\
        map callback_data buttons = map (fun seriesId => "series_" +:+ seriesId) ids /\
        (forall i seriesId,
           ids !! i = Some seriesId ->
           buttonText <$> buttons !! i
             = Some (labelOf (nameResponse (nameRequests d ++ take i ids) seriesId))) /\
        run.1 = if listTransport (listCalls d) (ReplyButtons seriesListText buttons)
                then Done tt
                else Rejected (ReplyButtons seriesListText buttons)
  end.
Proof.
  intros run ids. subst run ids. unfold list_series.
  destruct (seriesCollection (world d)) as [|s l] eqn:Hids.
  - simpl. rewrite app_nil_r. auto.
  - unfold mbind, D_bind.
    destruct (pushButtons_run nameResponse (s :: l) [] d)
      as (added & lines & -> & Hdata & Hlabels).
    unfold list_await. simpl.
    split; [destruct (listTransport _ _); reflexivity|].
    split; [destruct (listTransport _ _); reflexivity|].
    exists added.
    split; [destruct (listTransport _ _); reflexivity|].
    split; [exact Hdata|]. split; [exact Hlabels|].
    destruct (listTransport _ _); reflexivity.
Qed.

(** X23.  [back_to_list] builds its keyboard as [list_series] builds its
    buttons: from the same state and the same provider answers both make the
    same name requests, and the keyboard of the edit is the list of buttons
    of the reply, one button per row.  With nothing tracked both send the
    same plain reply. *)
Theorem back_to_list_same_buttons nameResponse listTransport listTransport' d :
  let listed := (list_series nameResponse listTransport d).2 in
  let back := (back_to_list nameResponse listTransport' d).2 in
  nameRequests back = nameRequests listed /\
  match seriesCollection (world d) with
  | [] => listCalls back = listCalls listed
  | _ :: _ =>
      exists buttons,
        listCalls listed = listCalls d ++ [ReplyButtons seriesListText buttons] /\
        listCalls back
          = listCalls d ++
            [EditKeyboard seriesListText (map (fun b => [b]) buttons)]
  end.
Proof.
  intros listed back. subst listed back. unfold list_series, back_to_list.
  destruct (seriesCollection (world d)) as [|s l].
  - split; reflexivity.
  - unfold mbind, D_bind.
    destruct (pushButtons_run nameResponse (s :: l) [] d)
      as (added & lines & -> & _ & _).
    unfold list_await. simpl.
    split; [destruct (listTransport _ _), (listTransport' _ _); reflexivity|].
    exists added.
    split; [destruct (listTransport _ _) | destruct (listTransport' _ _)];
      reflexivity.
Qed.
